(** * Path-addressed node editing in the JSON graph editor

    A shallow embedding of
      - [src/features/modals/NodeModal/index.tsx]  (the multi-field detail editor)
      - [src/features/editor/views/GraphView/CustomNode/TextNode.tsx]
        (the inline single-value editor)
    and the properties of their projection, coercion and save paths.

    Modelling conventions.
      - A JavaScript string is a Rocq [string]; a character stands for the
        code unit of the same number (0 to 255), so the white space that
        [trim] and [Number] strip is TAB, LF, VT, FF, CR, SP and NBSP.
      - A JavaScript number is kept as the decimal value of the numeral it
        was read from, in the shape [Number::toString] works on (a digit
        string without leading or trailing zeros and a decimal position).
        Rounding to binary64 is not part of the model.
      - A document is a tree of parsed JSON data.  [JSON.parse] builds it
        without sharing, so a mutation in place, reached through a path, is
        the update of the tree at that path.  Property reads and writes are
        modelled on that data: members of objects, elements of arrays,
        characters of strings.
      - The runtime gives names of its own to every value: the properties
        of the prototype objects ([constructor], [toString], [__proto__],
        the methods) and the [length] of arrays and strings, here those of
        ECMAScript 2024 with its Annex B, on prototypes that no other code
        has changed.  What is read under such a name is not document data:
        the read is told apart from an undefined slot, and a handler whose
        walk meets one leaves the document; how it then ends is the
        runtime's, a parameter of the handler.
      - The modules are ES modules, hence strict mode: a write to a property
        of a primitive raises a TypeError, as does any access on [null].
        Exceptions are caught by the [try] block of the handler; the model
        records how the block was left.
      - [JSON.parse] is a function of the runtime, taken as a parameter;
        [JSON.stringify(value, null, 2)] is written out. *)

From Stdlib Require Import List String Ascii Bool Arith ZArith NArith Lia.
From Stdlib Require Import DecimalString DecimalPos DecimalN.
Import ListNotations.
Open Scope string_scope.

Set Implicit Arguments.

(* ================================================================== *)
(** * Strings *)

Definition nl : string := String (ascii_of_nat 10) EmptyString.

(** WhiteSpace and LineTerminator code units below 256: TAB, LF, VT, FF, CR,
    SP and NBSP.  [String.prototype.trim] and [StringToNumber] strip these. *)
Definition is_white (c : ascii) : bool :=
  let n := nat_of_ascii c in
  ((9 <=? n) && (n <=? 13) || (n =? 32) || (n =? 160))%nat.

Fixpoint trim_start (s : string) : string :=
  match s with
  | EmptyString => EmptyString
  | String c s' => if is_white c then trim_start s' else s
  end.

(** Drops the trailing white space: a character is kept when it is not white
    or when something is kept after it. *)
Fixpoint trim_end (s : string) : string :=
  match s with
  | EmptyString => EmptyString
  | String c s' =>
      match trim_end s' with
      | EmptyString => if is_white c then EmptyString else String c EmptyString
      | r => String c r
      end
  end.

(** [raw.trim()] *)
Definition trim (s : string) : string := trim_end (trim_start s).

Fixpoint repeat_string (c : ascii) (n : nat) : string :=
  match n with
  | O => EmptyString
  | S n' => String c (repeat_string c n')
  end.

Fixpoint take (n : nat) (s : string) : string :=
  match n, s with
  | S n', String c s' => String c (take n' s')
  | _, _ => EmptyString
  end.

Fixpoint drop (n : nat) (s : string) : string :=
  match n, s with
  | S n', String _ s' => drop n' s'
  | _, _ => s
  end.

Fixpoint join (sep : string) (l : list string) : string :=
  match l with
  | [] => EmptyString
  | [x] => x
  | x :: rest => x ++ sep ++ join sep rest
  end.

(* ================================================================== *)
(** * Numbers *)

(** A finite number is [+/-0.d1...dk x 10^pos] with [d1] and [dk] non-zero;
    zero has no digits and position 0.  These are the [s], [k] and [n] of
    [Number::toString]. *)
Inductive number : Type :=
| Finite (neg : bool) (digits : string) (pos : Z)
| Infinite (neg : bool).

Definition is_digit (c : ascii) : bool :=
  let n := nat_of_ascii c in ((48 <=? n) && (n <=? 57))%nat.

Fixpoint all_digits (s : string) : bool :=
  match s with
  | EmptyString => true
  | String c s' => is_digit c && all_digits s'
  end.

(** The value of a non-empty string of decimal digits. *)
Definition decimal_value (s : string) : option N :=
  option_map N.of_uint (NilZero.uint_of_string s).

(** Splits a string into its longest prefix of decimal digits and the rest. *)
Fixpoint span_digits (s : string) : string * string :=
  match s with
  | String c s' =>
      if is_digit c then let (d, r) := span_digits s' in (String c d, r)
      else (EmptyString, s)
  | EmptyString => (EmptyString, EmptyString)
  end.

(** Drops leading zeros, counting them. *)
Fixpoint strip_leading_zeros (s : string) : nat * string :=
  match s with
  | String c s' =>
      if Ascii.eqb c "0"
      then let (n, r) := strip_leading_zeros s' in (S n, r)
      else (O, s)
  | EmptyString => (O, s)
  end.

Fixpoint strip_trailing_zeros (s : string) : string :=
  match s with
  | EmptyString => EmptyString
  | String c s' =>
      match strip_trailing_zeros s' with
      | EmptyString => if Ascii.eqb c "0" then EmptyString else String c EmptyString
      | r => String c r
      end
  end.

(** The number [+/-0.ds x 10^pos], for any digit string [ds]. *)
Definition normalize (neg : bool) (ds : string) (pos : Z) : number :=
  let (z, ds1) := strip_leading_zeros ds in
  match strip_trailing_zeros ds1 with
  | EmptyString => Finite neg EmptyString 0
  | ds2 => Finite neg ds2 (pos - Z.of_nat z)
  end.

Definition decimal_of_N (n : N) : string := NilZero.string_of_uint (N.to_uint n).

Definition number_of_N (n : N) : number :=
  let ds := decimal_of_N n in normalize false ds (Z.of_nat (String.length ds)).

(** An optional sign: whether it is [-], and what follows it. *)
Definition strip_sign (s : string) : bool * string :=
  match s with
  | String c r =>
      if Ascii.eqb c "+" then (false, r)
      else if Ascii.eqb c "-" then (true, r)
      else (false, s)
  | EmptyString => (false, s)
  end.

(** ExponentPart after its [e]: an optional sign and at least one digit. *)
Definition exponent_part (s : string) : option Z :=
  let (neg, ds) := strip_sign s in
  match decimal_value ds with
  | Some v => Some (if neg then - Z.of_N v else Z.of_N v)%Z
  | None => None
  end.

(** StrUnsignedDecimalLiteral without [Infinity]:
    [digits . digits? exp?], [. digits exp?] or [digits exp?].
    Returns all the digits and the position of the decimal point. *)
Definition unsigned_decimal (s : string) : option (string * Z) :=
  let (ip, r1) := span_digits s in
  let (fp, r2) :=
    match r1 with
    | String c r => if Ascii.eqb c "." then span_digits r else (EmptyString, r1)
    | EmptyString => (EmptyString, r1)
    end in
  match ip ++ fp with
  | EmptyString => None
  | ds =>
      let p := Z.of_nat (String.length ip) in
      match r2 with
      | EmptyString => Some (ds, p)
      | String c r3 =>
          if Ascii.eqb c "e" || Ascii.eqb c "E"
          then match exponent_part r3 with
               | Some e => Some (ds, (p + e)%Z)
               | None => None
               end
          else None
      end
  end.

Definition hex_digit_value (c : ascii) : option N :=
  let n := nat_of_ascii c in
  if ((48 <=? n) && (n <=? 57))%nat then Some (N.of_nat (n - 48))
  else if ((97 <=? n) && (n <=? 102))%nat then Some (N.of_nat (n - 87))
  else if ((65 <=? n) && (n <=? 70))%nat then Some (N.of_nat (n - 55))
  else None.

Definition radix_digit (radix : N) (c : ascii) : option N :=
  match hex_digit_value c with
  | Some d => if (d <? radix)%N then Some d else None
  | None => None
  end.

Fixpoint radix_digits (radix : N) (acc : N) (s : string) : option N :=
  match s with
  | EmptyString => Some acc
  | String c s' =>
      match radix_digit radix c with
      | Some d => radix_digits radix (radix * acc + d)%N s'
      | None => None
      end
  end.

(** NonDecimalIntegerLiteral: [0x], [0o] or [0b] (either case) and at least
    one digit of that radix; it takes no sign. *)
Definition non_decimal_integer (s : string) : option N :=
  match s with
  | String z (String p ((String _ _) as ds)) =>
      if negb (Ascii.eqb z "0") then None
      else if Ascii.eqb p "x" || Ascii.eqb p "X" then radix_digits 16 0 ds
      else if Ascii.eqb p "o" || Ascii.eqb p "O" then radix_digits 8 0 ds
      else if Ascii.eqb p "b" || Ascii.eqb p "B" then radix_digits 2 0 ds
      else None
  | _ => None
  end.

(** StrDecimalLiteral: an optional sign, then [Infinity] or an unsigned
    decimal literal. *)
Definition signed_decimal (s : string) : option number :=
  let (neg, u) := strip_sign s in
  if String.eqb u "Infinity" then Some (Infinite neg)
  else match unsigned_decimal u with
       | Some (ds, p) => Some (normalize neg ds p)
       | None => None
       end.

(** [Number(s)] for a string [s]; [None] stands for NaN.  White space around
    the literal is ignored and the empty literal is +0. *)
Definition StringToNumber (s : string) : option number :=
  let t := trim s in
  match t with
  | EmptyString => Some (Finite false EmptyString 0)
  | _ =>
      match non_decimal_integer t with
      | Some n => Some (number_of_N n)
      | None => signed_decimal t
      end
  end.

(** The three shapes of numeral [Number] reads.  The first is the one the
    specification names: a number "under standard decimal/exponent rules",
    that is an optional sign, decimal digits with an optional fraction, and
    an optional exponent. *)
Definition decimal_exponent_form (t : string) : bool :=
  match unsigned_decimal (snd (strip_sign t)) with
  | Some _ => true
  | None => false
  end.

Definition infinity_form (t : string) : bool :=
  String.eqb (snd (strip_sign t)) "Infinity".

Definition radix_form (t : string) : bool :=
  match non_decimal_integer t with
  | Some _ => true
  | None => false
  end.

(** [Number::toString] of the positive number [0.d rest x 10^n]: the digits
    followed by zeros, the digits around a decimal point, the digits after
    [0.] and zeros, or the exponent notation. *)
Definition positive_text (d : ascii) (rest : string) (n : Z) : string :=
  let ds := String d rest in
  let k := Z.of_nat (String.length ds) in
  if ((k <=? n) && (n <=? 21))%Z
  then ds ++ repeat_string "0" (Z.to_nat (n - k))
  else if ((0 <? n) && (n <=? 21))%Z
  then take (Z.to_nat n) ds ++ "." ++ drop (Z.to_nat n) ds
  else if ((-6 <? n) && (n <=? 0))%Z
  then "0." ++ repeat_string "0" (Z.to_nat (- n)) ++ ds
  else
    let e := (n - 1)%Z in
    let mant := match rest with
                | EmptyString => String d EmptyString
                | _ => String d ("." ++ rest)
                end in
    mant ++ "e" ++ (if (e <? 0)%Z then "-" else "+")
         ++ decimal_of_N (Z.to_N (Z.abs e)).

(** [Number::toString(x)] in radix 10. *)
Definition NumberToString (x : number) : string :=
  match x with
  | Infinite neg => if neg then "-Infinity" else "Infinity"
  | Finite _ EmptyString _ => "0"
  | Finite neg (String d rest) n =>
      if neg then "-" ++ positive_text d rest n else positive_text d rest n
  end.

(* ================================================================== *)
(** * Document values *)

(** The primitive values: what [parseDraftValue] returns and what a row of a
    node holds. *)
Inductive Prim : Type :=
| PNull
| PBool (b : bool)
| PNum (n : number)
| PStr (s : string).

(** [String(p)] *)
Definition ToString (p : Prim) : string :=
  match p with
  | PNull => "null"
  | PBool true => "true"
  | PBool false => "false"
  | PNum n => NumberToString n
  | PStr s => s
  end.

(** [parseDraftValue], lines 46-58 of NodeModal/index.tsx *)
Definition parseDraftValue (raw : string) : Prim :=
  let trimmed := trim raw in
  if String.eqb trimmed "null" then PNull
  else if String.eqb trimmed "true" then PBool true
  else if String.eqb trimmed "false" then PBool false
  else if negb (String.eqb trimmed "") then
    match StringToNumber trimmed with
    | Some n => PNum n
    | None => PStr raw
    end
  else PStr raw.

(* ================================================================== *)
(** * Own properties *)

(** A canonical array index: a decimal numeral without leading zeros whose
    value is below 2^32 - 1. *)
Definition array_index (k : string) : option N :=
  match k with
  | EmptyString => None
  | String c rest =>
      if negb (Ascii.eqb c "0") || String.eqb rest ""
      then match decimal_value k with
           | Some n => if (n <? 4294967295)%N then Some n else None
           | None => None
           end
      else None
  end.

Section Own.
Variable A : Type.

(** The properties of an object, in the order [Object.entries] and
    [JSON.stringify] visit them: integer keys ascending, then the other
    keys in the order of their creation. *)
Definition props := list (string * A).

Fixpoint own_get (m : props) (k : string) : option A :=
  match m with
  | [] => None
  | (k', v) :: rest => if String.eqb k' k then Some v else own_get rest k
  end.

(** Writing an existing property keeps its place. *)
Fixpoint own_replace (m : props) (k : string) (v : A) : props :=
  match m with
  | [] => []
  | (k', v') :: rest =>
      if String.eqb k' k then (k', v) :: rest
      else (k', v') :: own_replace rest k v
  end.

(** A new integer key [i] goes before the first key that is not an
    integer or is a larger one. *)
Fixpoint own_insert_index (m : props) (i : N) (k : string) (v : A) : props :=
  match m with
  | [] => [(k, v)]
  | (k', v') :: rest =>
      match array_index k' with
      | Some j => if (j <? i)%N then (k', v') :: own_insert_index rest i k v
                  else (k, v) :: m
      | None => (k, v) :: m
      end
  end.

Definition own_insert (m : props) (k : string) (v : A) : props :=
  match array_index k with
  | Some i => own_insert_index m i k v
  | None => (m ++ [(k, v)])%list
  end.

(** [obj[k] = v] on the properties of an ordinary object, for a name that
    is a property of the object or that its prototype leaves to it; the
    writes under [__proto__] are told apart where they are made. *)
Definition own_set (m : props) (k : string) (v : A) : props :=
  match own_get m k with
  | Some _ => own_replace m k v
  | None => own_insert m k v
  end.
End Own.

(* ================================================================== *)
(** * Documents and paths *)

Unset Elimination Schemes.
Inductive Json : Type :=
| JPrim (p : Prim)
| JArr (elems : list Json)
| JObj (members : list (string * Json)).
Set Elimination Schemes.

Coercion JPrim : Prim >-> Json.

(** A path segment: an object key or an array index ([string | number]). *)
Inductive Seg : Type :=
| Key (k : string)
| Idx (i : N).

(** The property key a segment denotes: [ToString] of it. *)
Definition seg_key (s : Seg) : string :=
  match s with
  | Key k => k
  | Idx i => NumberToString (number_of_N i)
  end.

Definition seg_index (s : Seg) : option N := array_index (seg_key s).

(** The kinds of value that have properties. *)
Inductive Kind : Type :=
| KObject | KArray | KString | KNumber | KBoolean.

(** The string-keyed properties of [Object.prototype], which every value
    but [null] inherits. *)
Definition Object_prototype : list string :=
  ["constructor"; "__defineGetter__"; "__defineSetter__"; "hasOwnProperty";
   "__lookupGetter__"; "__lookupSetter__"; "isPrototypeOf";
   "propertyIsEnumerable"; "toString"; "valueOf"; "__proto__";
   "toLocaleString"].

(** The [length] of an array and the string-keyed properties of
    [Array.prototype]. *)
Definition Array_prototype : list string :=
  ["length"; "constructor"; "at"; "concat"; "copyWithin"; "fill"; "find";
   "findIndex"; "findLast"; "findLastIndex"; "lastIndexOf"; "pop"; "push";
   "reverse"; "shift"; "unshift"; "slice"; "sort"; "splice"; "includes";
   "indexOf"; "join"; "keys"; "entries"; "values"; "forEach"; "filter";
   "flat"; "flatMap"; "map"; "every"; "some"; "reduce"; "reduceRight";
   "toLocaleString"; "toString"; "toReversed"; "toSorted"; "toSpliced";
   "with"].

(** The [length] of a string and the string-keyed properties of
    [String.prototype]. *)
Definition String_prototype : list string :=
  ["length"; "constructor"; "anchor"; "at"; "big"; "blink"; "bold"; "charAt";
   "charCodeAt"; "codePointAt"; "concat"; "endsWith"; "fontcolor";
   "fontsize"; "fixed"; "includes"; "indexOf"; "isWellFormed"; "italics";
   "lastIndexOf"; "link"; "localeCompare"; "match"; "matchAll"; "normalize";
   "padEnd"; "padStart"; "repeat"; "replace"; "replaceAll"; "search";
   "slice"; "small"; "split"; "strike"; "sub"; "substr"; "substring"; "sup";
   "startsWith"; "toString"; "toWellFormed"; "trim"; "trimStart";
   "trimLeft"; "trimEnd"; "trimRight"; "toLocaleLowerCase";
   "toLocaleUpperCase"; "toLowerCase"; "toUpperCase"; "valueOf"].

Definition Number_prototype : list string :=
  ["constructor"; "toExponential"; "toFixed"; "toPrecision"; "toString";
   "valueOf"; "toLocaleString"].

Definition Boolean_prototype : list string :=
  ["constructor"; "toString"; "valueOf"].

(** The names under which the runtime itself provides a property to a
    value of a kind. *)
Definition builtin_name (kind : Kind) (name : string) : bool :=
  existsb (String.eqb name)
          (match kind with
           | KObject => []
           | KArray => Array_prototype
           | KString => String_prototype
           | KNumber => Number_prototype
           | KBoolean => Boolean_prototype
           end ++ Object_prototype).

(** The name of the accessor of [Object.prototype] that reads and sets the
    prototype of an object. *)
Definition proto : string := "__proto__".

(** Outcome of a property read [v[s]]: a value of the document, nothing,
    an exception, or what the runtime provides under the name (a method,
    a prototype object, a length), which is not document data. *)
Inductive Lookup : Type :=
| Found (v : Json)
| Undefined
| TypeError
| Builtin.

(** What is read under a name that is not a slot of the value. *)
Definition absent (kind : Kind) (s : Seg) : Lookup :=
  if builtin_name kind (seg_key s) then Builtin else Undefined.

Definition js_get (v : Json) (s : Seg) : Lookup :=
  match v with
  | JPrim PNull => TypeError
  | JPrim (PStr str) =>
      match seg_index s with
      | Some i =>
          match String.get (N.to_nat i) str with
          | Some c => Found (PStr (String c EmptyString))
          | None => Undefined
          end
      | None => absent KString s
      end
  | JPrim (PNum _) => absent KNumber s
  | JPrim (PBool _) => absent KBoolean s
  | JArr l =>
      match seg_index s with
      | Some i =>
          match nth_error l (N.to_nat i) with
          | Some x => Found x
          | None => Undefined
          end
      | None => absent KArray s
      end
  | JObj m =>
      match own_get m (seg_key s) with
      | Some x => Found x
      | None => absent KObject s
      end
  end.

(** [l[i] = v] on the elements of an array.  Past the end the array grows;
    the holes in between are written [null], which is how [JSON.stringify]
    prints them. *)
Fixpoint array_set (l : list Json) (i : nat) (v : Json) : list Json :=
  match i, l with
  | O, [] => [v]
  | O, _ :: rest => v :: rest
  | S i', [] => JPrim PNull :: array_set [] i' v
  | S i', x :: rest => x :: array_set rest i' v
  end.

(** Control outcomes of a handler body: normal completion, the early
    [return] of the invalid-path guard, or a raised exception. *)
Inductive Exec (A : Type) : Type :=
| Ok (a : A)
| Return
| Throw.
Arguments Ok {A} a.
Arguments Return {A}.
Arguments Throw {A}.

Definition bind {A B : Type} (c : Exec A) (k : A -> Exec B) : Exec B :=
  match c with
  | Ok a => k a
  | Return => Return
  | Throw => Throw
  end.

Notation "x <- c ;; k" := (bind c (fun x => k))
  (at level 61, c at next level, right associativity).

(** What the accesses of a handler come to: one of the control outcomes
    while they stay within the document, or they leave it, by an access
    under a name that the runtime provides. *)
Inductive Walk (A : Type) : Type :=
| Within (outcome : Exec A)
| Leaves.
Arguments Within {A} outcome.
Arguments Leaves {A}.

Coercion Within : Exec >-> Walk.

Definition follow {A B : Type} (c : Walk A) (k : A -> Walk B) : Walk B :=
  match c with
  | Within (Ok a) => k a
  | Within Return => Within Return
  | Within Throw => Within Throw
  | Leaves => Leaves
  end.

Notation "x <~ c ;; k" := (follow c (fun x => k))
  (at level 61, c at next level, right associativity).

(** The runtime past the document: how the [try] block of a handler is
    left, and with which document, when its accesses leave the document
    parsed from the store; it is asked with that document, the path and
    what the handler writes. *)
Definition Runtime (A : Type) : Type := Json -> list Seg -> A -> Exec Json.

(** How the accesses end: as they do within the document, or as the
    [runtime] has it when they leave it. *)
Definition landed {A : Type} (walk : Walk A) (runtime : Exec A) : Exec A :=
  match walk with
  | Within outcome => outcome
  | Leaves => runtime
  end.

(** The assignment [parent[s] = v] of a value that is not an object of the
    runtime.
      - On an object: a member of its own is written, and a new name makes
        a new member, but for [__proto__], which runs the setter of
        [Object.prototype]; the setter adds no member.
      - On an array: an index writes an element; a name that the runtime
        provides ([length], which resizes the array or raises) leaves the
        document; any other name makes a named property, which is not an
        element and is never serialised.
      - On a primitive the write raises, [null] or not, unless the name is
        one that the runtime provides. *)
Definition js_set (parent : Json) (s : Seg) (v : Json) : Walk Json :=
  match parent with
  | JPrim _ =>
      match js_get parent s with
      | Builtin => Leaves
      | _ => Throw
      end
  | JArr l =>
      match seg_index s with
      | Some i => Ok (JArr (array_set l (N.to_nat i) v))
      | None =>
          match js_get parent s with
          | Builtin => Leaves
          | _ => Ok (JArr l)
          end
      end
  | JObj m =>
      match own_get m (seg_key s) with
      | None => if String.eqb (seg_key s) proto then Ok (JObj m)
                else Ok (JObj (own_set m (seg_key s) v))
      | Some _ => Ok (JObj (own_set m (seg_key s) v))
      end
  end.

(** The document after the value held in slot [s] of [parent] was mutated in
    place into [child]: the slot exists, so this is a write to it. *)
Definition js_replace (parent : Json) (s : Seg) (child : Json) : Json :=
  match js_set parent s child with
  | Within (Ok p) => p
  | _ => parent
  end.

(** Reading along a whole path. *)
Fixpoint get_path (v : Json) (path : list Seg) : Lookup :=
  match path with
  | [] => Found v
  | s :: rest =>
      match js_get v s with
      | Found child => get_path child rest
      | other => other
      end
  end.

(** The loop over the segments [0 .. length-2] shared by both editors:
    each step reads [parent[path[i]]] and leaves through the guard when the
    slot is undefined; [final] is what the handler does on the container it
    reached.  The handlers mutate in place, so what [final] returns is
    written back along the path walked.  What the runtime provides is not
    undefined, so the loop goes on with it, out of the document. *)
Fixpoint descend (parent : Json) (inter : list Seg) (final : Json -> Walk Json) : Walk Json :=
  match inter with
  | [] => final parent
  | s :: rest =>
      match js_get parent s with
      | TypeError => Throw
      | Undefined => Return
      | Builtin => Leaves
      | Found child =>
          child' <~ descend child rest final ;;
          Ok (js_replace parent s child')
      end
  end.

(* ================================================================== *)
(** * JSON.stringify(value, null, 2) *)

Definition dquote : string := String (ascii_of_nat 34) EmptyString.

Definition hex_digit (n : nat) : ascii :=
  if (n <? 10)%nat then ascii_of_nat (48 + n) else ascii_of_nat (87 + n).

(** QuoteJSONString, one code unit at a time. *)
Definition quote_char (c : ascii) : string :=
  let n := nat_of_ascii c in
  if (n =? 34)%nat then "\" ++ dquote
  else if (n =? 92)%nat then "\\"
  else if (n =? 8)%nat then "\b"
  else if (n =? 12)%nat then "\f"
  else if (n =? 10)%nat then "\n"
  else if (n =? 13)%nat then "\r"
  else if (n =? 9)%nat then "\t"
  else if (n <? 32)%nat
       then "\u00" ++ String (hex_digit (n / 16)) (String (hex_digit (n mod 16)) EmptyString)
  else String c EmptyString.

Fixpoint quote_chars (s : string) : string :=
  match s with
  | EmptyString => EmptyString
  | String c s' => quote_char c ++ quote_chars s'
  end.

Definition QuoteJSONString (s : string) : string := dquote ++ quote_chars s ++ dquote.

Definition serialize_prim (p : Prim) : string :=
  match p with
  | PNull => "null"
  | PBool true => "true"
  | PBool false => "false"
  | PNum (Infinite _) => "null"
  | PNum n => NumberToString n
  | PStr s => QuoteJSONString s
  end.

Definition gap : string := "  ".

Fixpoint serialize (indent : string) (v : Json) : string :=
  match v with
  | JPrim p => serialize_prim p
  | JArr l =>
      match l with
      | [] => "[]"
      | _ =>
          let inner := indent ++ gap in
          "[" ++ nl ++ inner
              ++ join ("," ++ nl ++ inner) (map (serialize inner) l)
              ++ nl ++ indent ++ "]"
      end
  | JObj m =>
      match m with
      | [] => "{}"
      | _ =>
          let inner := indent ++ gap in
          "{" ++ nl ++ inner
              ++ join ("," ++ nl ++ inner)
                   (map (fun '(k, x) => QuoteJSONString k ++ ": " ++ serialize inner x) m)
              ++ nl ++ indent ++ "}"
      end
  end.

Definition stringify (v : Json) : string := serialize EmptyString v.

(* ================================================================== *)
(** * Node rows and the stores *)

Inductive RowType : Type :=
| TString | TNumber | TBoolean | TNull | TObject | TArray.

(** One row of [NodeData["text"]]: [key] is [string | null], [value] is a
    primitive and is absent on the rows of nested containers. *)
Record NodeRow : Type := {
  key : option string;
  value : option Prim;
  type : RowType
}.

Record NodeData : Type := {
  text : list NodeRow;
  path : option (list Seg)
}.

(** [row.key] when it is truthy: neither [null] nor the empty string. *)
Definition truthy_key (k : option string) : option string :=
  match k with
  | Some s => if String.eqb s "" then None else Some s
  | None => None
  end.

Definition is_container_row (r : NodeRow) : bool :=
  match type r with
  | TObject | TArray => true
  | _ => false
  end.

(** [v === null || v === undefined ? "" : String(v)], the text an input
    shows for a value. *)
Definition field_text (v : option Prim) : string :=
  match v with
  | None | Some PNull => ""
  | Some p => ToString p
  end.

Definition type_of (p : Prim) : RowType :=
  match p with
  | PNull => TNull
  | PBool _ => TBoolean
  | PNum _ => TNumber
  | PStr _ => TString
  end.

(** Modelled from the spec: the rows of the node of an object, which the
    graph builder (not part of the sources) derives from the document: one
    row per member under the member's name, holding the value of a
    primitive member and no value for a nested container. *)
Definition rows_of_object (m : props Json) : list NodeRow :=
  map (fun '(k, v) =>
         match v with
         | JPrim p => {| key := Some k; value := Some p; type := type_of p |}
         | JArr _ => {| key := Some k; value := None; type := TArray |}
         | JObj _ => {| key := Some k; value := None; type := TObject |}
         end) m.

(** The template literal [`${v}`] *)
Definition template (v : option Prim) : string :=
  match v with
  | Some p => ToString p
  | None => "undefined"
  end.

(** What the handlers see and change: the text held by the JSON store, the
    contents of the text editor's file store, the [isEditing] flag of the
    component and the messages it sent to the console. *)
Record World : Type := {
  json : string;
  contents : string;
  isEditing : bool;
  console : list string
}.

(** Modelled from the spec: [useJson.getState().setJson], whose store is not
    part of the sources; it sets the document text. *)
Definition setJson (t : string) (w : World) : World :=
  {| json := t; contents := contents w; isEditing := isEditing w; console := console w |}.

(** Modelled from the spec: [useFile.getState().setContents], whose store is
    not part of the sources; it sets the contents of the raw text buffer. *)
Definition setContents (t : string) (w : World) : World :=
  {| json := json w; contents := t; isEditing := isEditing w; console := console w |}.

Definition setIsEditing (b : bool) (w : World) : World :=
  {| json := json w; contents := contents w; isEditing := b; console := console w |}.

Definition log (msg : string) (w : World) : World :=
  {| json := json w; contents := contents w; isEditing := isEditing w;
     console := (console w ++ [msg])%list |}.

Section Handlers.
(** [JSON.parse]; [None] when it raises a SyntaxError. *)
Variable JSON_parse : string -> option Json.

(** [currentJson ? JSON.parse(currentJson) : {}] *)
Definition parse_current (currentJson : string) : Exec Json :=
  if String.eqb currentJson "" then Ok (JObj [])
  else match JSON_parse currentJson with
       | Some v => Ok v
       | None => Throw
       end.
End Handlers.

(** A [JSON.parse] that reads the canonical text of one document and
    rejects every other text; it stands for the runtime's in the examples. *)
Definition reads (v : Json) : string -> option Json :=
  fun t => if String.eqb t (stringify v) then Some v else None.

(* ------------------------------------------------------------------ *)
Module NodeModal.

(** [obj[k] = v] on the object literal of [normalizeNodeData], of which
    [detached] tells that it has lost its prototype.  While it has it, the
    object has no member [__proto__] of its own and a write under that name
    runs the setter it inherits: [null] takes the prototype away, and any
    other primitive, like [undefined], is ignored.  Without the prototype
    the name is like any other. *)
Definition literal_set (obj : props (option Prim) * bool) (k : string)
           (v : option Prim) : props (option Prim) * bool :=
  let (members, detached) := obj in
  if String.eqb k proto && negb detached
  then (members, match v with Some PNull => true | _ => false end)
  else (own_set members k v, detached).

(** [normalizeNodeData], lines 20-31.  [JSON.stringify] leaves out the
    properties whose value is undefined. *)
Definition normalizeNodeData (nodeRows : list NodeRow) : string :=
  let general :=
    let obj :=
      fold_left
        (fun obj row =>
           if is_container_row row then obj
           else match truthy_key (key row) with
                | Some k => literal_set obj k (value row)
                | None => obj
                end)
        nodeRows ([], false) in
    stringify
      (JObj (flat_map (fun '(k, v) => match v with
                                      | Some p => [(k, JPrim p)]
                                      | None => []
                                      end) (fst obj))) in
  match nodeRows with
  | [] => "{}"
  | [row] =>
      match truthy_key (key row) with
      | None => template (value row)
      | Some _ => general
      end
  | _ => general
  end.

(** [fields[k] = text] on the object literal of [extractEditableFields]:
    under the name [__proto__] the setter that the literal inherits is
    run, which ignores a string, so that no field is made. *)
Definition field_set (fields : props string) (k text : string) : props string :=
  if String.eqb k proto then fields else own_set fields k text.

(** [extractEditableFields], lines 34-43; the text of a field is
    [row.value === null || row.value === undefined ? "" : String(row.value)]. *)
Definition extractEditableFields (nodeRows : list NodeRow) : props string :=
  fold_left
    (fun fields row =>
       if is_container_row row then fields
       else match truthy_key (key row) with
            | Some k => field_set fields k (field_text (value row))
            | None => fields
            end)
    nodeRows [].

(** [Object.entries(fields).forEach(([key, value]) =>
       { nodeTarget[key] = parseDraftValue(value); })] *)
Fixpoint assign_fields (nodeTarget : Json) (entries : props string) : Walk Json :=
  match entries with
  | [] => Ok nodeTarget
  | (k, v) :: rest =>
      t <~ js_set nodeTarget (Key k) (parseDraftValue v) ;;
      assign_fields t rest
  end.

(** [Object.values(fields)[0] ?? ""] *)
Definition firstFieldValue (fields : props string) : string :=
  match fields with
  | [] => ""
  | (_, v) :: _ => v
  end.

(** [typeof v === "object" && !Array.isArray(v)], the test of the root
    case: it holds of [null] too. *)
Definition typeof_object_not_array (v : Json) : bool :=
  match v with
  | JObj _ | JPrim PNull => true
  | _ => false
  end.

(** Lines 113-125 of [handleSave]: what is done on [parent] once the
    loop has reached it.  [nodeTarget = parent[lastKey]] is tested by
    [nodeTarget && typeof nodeTarget === "object" && !Array.isArray(nodeTarget)],
    which holds of objects only. *)
Definition final_step (lastKey : Seg) (fields : props string) (parent : Json) : Walk Json :=
  match js_get parent lastKey with
  | TypeError => Throw
  | Builtin => Leaves
  | Found (JObj m) =>
      (* if the node is an object, update its fields *)
      nodeTarget <~ assign_fields (JObj m) fields ;;
      Ok (js_replace parent lastKey nodeTarget)
  | _ =>
      (* primitive value node: use the first field value *)
      js_set parent lastKey (parseDraftValue (firstFieldValue fields))
  end.

(** Lines 100-136 of [handleSave]: the mutation of the parsed [root]. *)
Definition update (root : Json) (path : list Seg) (fields : props string) : Walk Json :=
  match path with
  | _ :: _ =>
      descend root (removelast path) (final_step (last path (Key "")) fields)
  | [] =>
      (* root node case *)
      if typeof_object_not_array root then assign_fields root fields
      else
        (* [nodeTarget = parseDraftValue(...)] rebinds the local variable;
           [root] is what gets serialised *)
        let nodeTarget := JPrim (parseDraftValue (firstFieldValue fields)) in
        Ok root
  end.

(** [nodeData.path ?? []] *)
Definition path_of (nd : NodeData) : list Seg :=
  match path nd with
  | Some p => p
  | None => []
  end.

(** Lines 138-149 of [handleSave]: what follows the mutation, by the way
    the [try] block was left. *)
Definition settle (w : World) (attempt : Exec Json) : World :=
  match attempt with
  | Ok root =>
      let updatedJson := stringify root in
      (* update JSON store (graph) + left editor contents *)
      setIsEditing false (setContents updatedJson (setJson updatedJson w))
  | Return =>
      setIsEditing false (log "Invalid path while updating node" w)
  | Throw =>
      setIsEditing false (log "Failed to update JSON from NodeModal" w)
  end.

Section Save.
Variable JSON_parse : string -> option Json.

(** The runtime past the document, for the accesses of lines 100-136. *)
Variable beyond : Runtime (props string).

(** [handleSave], lines 90-150 *)
Definition handleSave (w : World) (nodeData : option NodeData)
           (fields : props string) : World :=
  match nodeData with
  | None => setIsEditing false w
  | Some nd =>
      settle w
        (root <- parse_current JSON_parse (json w) ;;
         landed (update root (path_of nd) fields)
                (beyond root (path_of nd) fields))
  end.
End Save.

(** The projection the specification calls [project]: the display
    string and the editable fields of a node. *)
Definition project (nodeRows : list NodeRow) : string * props string :=
  (normalizeNodeData nodeRows, extractEditableFields nodeRows).

End NodeModal.

(* ------------------------------------------------------------------ *)
Module TextNode.

(** [parseDraftValue], lines 78-90 of TextNode.tsx: the same text as in
    the modal. *)
Definition parseDraftValue (raw : string) : Prim :=
  let trimmed := trim raw in
  if String.eqb trimmed "null" then PNull
  else if String.eqb trimmed "true" then PBool true
  else if String.eqb trimmed "false" then PBool false
  else if negb (String.eqb trimmed "") then
    match StringToNumber trimmed with
    | Some n => PNum n
    | None => PStr raw
    end
  else PStr raw.

(** [String(value ?? "")] *)
Definition shown (value : option Prim) : string :=
  match value with
  | None | Some PNull => ""
  | Some v => ToString v
  end.

(** Lines 130-131 of [handleSave]: [target[lastKey] = parseDraftValue(draft)] *)
Definition final_step (lastKey : Seg) (draft : string) (target : Json) : Walk Json :=
  js_set target lastKey (parseDraftValue draft).

(** Lines 120-131 of [handleSave]: the mutation of [parsed]. *)
Definition update (parsed : Json) (path : list Seg) (draft : string) : Walk Json :=
  descend parsed (removelast path) (final_step (last path (Key "")) draft).

(** Lines 133-141 of [handleSave]: what follows the mutation, by the way
    the [try] block was left. *)
Definition settle (w : World) (attempt : Exec Json) : World :=
  match attempt with
  | Ok parsed =>
      let updatedJson := stringify parsed in
      (* updates left JSON editor + graph *)
      setIsEditing false (setJson updatedJson w)
  | Return => setIsEditing false w
  | Throw => setIsEditing false (log "Failed to update JSON from node editor" w)
  end.

Section Save.
Variable JSON_parse : string -> option Json.

(** The runtime past the document, for the accesses of lines 120-131. *)
Variable beyond : Runtime string.

(** [handleSave], lines 101-144; [value] is [text[0].value] of the node. *)
Definition handleSave (w : World) (value : option Prim)
           (path : option (list Seg)) (draft : string) : World :=
  (* no changes, nothing to do *)
  if String.eqb (shown value) draft then setIsEditing false w
  else
    match path with
    | None | Some [] => setIsEditing false w
    | Some p =>
        settle w
          (parsed <- parse_current JSON_parse (json w) ;;
           landed (update parsed p draft) (beyond parsed p draft))
    end.
End Save.

End TextNode.


(* ================================================================== *)
(** * Notions used by the statements *)

Definition is_container (v : Json) : bool :=
  match v with
  | JPrim _ => false
  | _ => true
  end.

(** The containers in which slot [s] can be written and read back: an
    object, unless [s] names the accessor [__proto__] and not a member of
    the object, and an array when [s] is an index. *)
Definition holds_slot (parent : Json) (s : Seg) : bool :=
  match parent with
  | JObj m =>
      match own_get m (seg_key s) with
      | Some _ => true
      | None => negb (String.eqb (seg_key s) proto)
      end
  | JArr _ => match seg_index s with Some _ => true | None => false end
  | JPrim _ => false
  end.


(** A primitive survives an edit that changes nothing when the text its
    field shows is read back as the primitive itself. *)
Definition survives_edit (p : Prim) : Prop :=
  parseDraftValue (field_text (Some p)) = p.

(** The world after a save that published [t] to both stores. *)
Definition published_both (t : string) (w : World) : World :=
  {| json := t; contents := t; isEditing := false; console := console w |}.

(** The world after a save that published [t] to the JSON store only. *)
Definition published_json (t : string) (w : World) : World :=
  {| json := t; contents := contents w; isEditing := false; console := console w |}.

(** The world after a save that published nothing and said [msgs]. *)
Definition abandoned (msgs : list string) (w : World) : World :=
  {| json := json w; contents := contents w; isEditing := false;
     console := (console w ++ msgs)%list |}.

(** The numbers as [Number] and [JSON.parse] make them: zero, or digits
    whose first and last are not zero, or an infinity. *)
Definition well_formed (x : number) : Prop :=
  match x with
  | Finite neg ds n =>
      (ds = "" /\ n = 0%Z /\ neg = false) \/
      (ds <> "" /\ all_digits ds = true /\
       strip_leading_zeros ds = (O, ds) /\ strip_trailing_zeros ds = ds)
  | Infinite _ => True
  end.

Fixpoint no_white (s : string) : bool :=
  match s with
  | EmptyString => true
  | String c s' => negb (is_white c) && no_white s'
  end.

(** A string is clean at its head when it does not begin with white space. *)
Definition clean_head (s : string) : bool :=
  match s with
  | EmptyString => true
  | String c _ => negb (is_white c)
  end.

(* ================================================================== *)
(** * Documents and sessions of the examples *)

(** The number [n]. *)
Definition num (n : N) : Json := JPrim (PNum (number_of_N n)).

(** A runtime for the examples, in which every access past the document
    raises; the examples stay within the document. *)
Definition raises {A : Type} : Runtime A :=
  fun _ _ _ => Throw.

(** A session in edit mode over the text [t], which both stores hold. *)
Definition editing (t : string) : World :=
  {| json := t; contents := t; isEditing := true; console := [] |}.

Definition doc_five : Json := num 5.
Definition doc_flag : Json := JObj [("flag", JPrim (PBool true))].
Definition doc_user : Json := JObj [("user", JObj [("age", num 30)])].
Definition doc_user_31 : Json := JObj [("user", JObj [("age", num 31)])].
Definition doc_zip : Json := JObj [("user", JObj [("zip", JPrim (PStr "01234"))])].
Definition doc_zip_number : Json := JObj [("user", JObj [("zip", num 1234)])].
Definition doc_null : Json := JObj [("a", JPrim PNull)].
Definition doc_a5 : Json := JObj [("a", num 5)].
Definition doc_list : Json := JArr [num 1; num 2; num 3].
Definition doc_card : Json :=
  JObj [("card", JObj [("name", JPrim (PStr "Ann")); ("age", num 30);
                       ("ok", JPrim (PBool true)); ("tags", JArr [num 1])])].

(** The row of a lone primitive: no key. *)
Definition row_of (p : Prim) : NodeRow :=
  {| key := None; value := Some p; type := type_of p |}.

(* ================================================================== *)
(** * The rest of the two components *)

(** One segment of [jsonPathToString]: a number as [join] prints it, a key
    between double quotes, as it is. *)
Definition path_segment (seg : Seg) : string :=
  match seg with
  | Idx i => NumberToString (number_of_N i)
  | Key k => dquote ++ k ++ dquote
  end.

(** [jsonPathToString], lines 61-65 of NodeModal/index.tsx *)
Definition jsonPathToString (path : option (list Seg)) : string :=
  match path with
  | None | Some [] => "$"
  | Some p => "$[" ++ join "][" (map path_segment p) ++ "]"
  end.

(** The key under which a row is edited: the row is not a container, its
    key is truthy (the tests of lines 36-37) and the write under it makes a
    property, which it does not under [__proto__]. *)
Definition editable_key (row : NodeRow) : option string :=
  if is_container_row row then None
  else match truthy_key (key row) with
       | Some k => if String.eqb k proto then None else Some k
       | None => None
       end.

(** The entries the editable rows stand for, in the order of the rows. *)
Definition editable_entries (rows : list NodeRow) : props string :=
  flat_map (fun row => match editable_key row with
                       | Some k => [(k, field_text (value row))]
                       | None => []
                       end) rows.

(** One step of [extractEditableFields]: the field a row adds. *)
Definition add_field (fields : props string) (row : NodeRow) : props string :=
  match editable_key row with
  | Some k => own_set fields k (field_text (value row))
  | None => fields
  end.

(** The member a row shows in the display of the modal: its key and its
    value, when the row is editable and has a value. *)
Definition displayed_member (row : NodeRow) : props Json :=
  match editable_key row, value row with
  | Some k, Some p => [(k, JPrim p)]
  | _, _ => []
  end.

(** Negative zero, which [Number] reads in [-0] and [String] prints [0]. *)
Definition negative_zero : number := Finite true EmptyString 0.

(** Two paths part ways: at some position, before either ends, their
    segments name different properties. *)
Fixpoint diverges (p q : list Seg) : bool :=
  match p, q with
  | s1 :: r1, s2 :: r2 =>
      if String.eqb (seg_key s1) (seg_key s2) then diverges r1 r2 else true
  | _, _ => false
  end.

(* ------------------------------------------------------------------ *)
(** The [Node] component of TextNode.tsx around its [handleSave]: the
    [draft] state beside the world. *)
Module NodeView.

(** The effect of lines 64-68: the draft follows the value while the node
    is not edited. *)
Definition syncDraft (value : option Prim) (w : World) (draft : string) : string :=
  if isEditing w then draft else field_text value.

(** [handleCancel], lines 92-99 *)
Definition handleCancel (value : option Prim) (w : World) (draft : string)
  : World * string :=
  (setIsEditing false w, field_text value).

(** [handleEditClick], lines 146-149 *)
Definition handleEditClick (w : World) : World := setIsEditing true w.

Section Keys.
Variable JSON_parse : string -> option Json.
Variable beyond : Runtime string.

(** [handleKeyDown], lines 151-158 *)
Definition handleKeyDown (pressed : string) (value : option Prim)
           (path : option (list Seg)) (w : World) (draft : string) : World * string :=
  if String.eqb pressed "Enter"
  then (TextNode.handleSave JSON_parse beyond w value path draft, draft)
  else if String.eqb pressed "Escape" then handleCancel value w draft
  else (w, draft).
End Keys.

End NodeView.

(* ================================================================== *)
(** * Trimming and numerals *)

Lemma trim_end_idempotent (s : string) : trim_end (trim_end s) = trim_end s.
Proof.
  induction s as [|c s IH]; simpl; [reflexivity|].
  destruct (trim_end s) as [|d r] eqn:E.
  - destruct (is_white c) eqn:W; simpl; [reflexivity|].
    now rewrite W.
  - simpl in *. rewrite IH. reflexivity.
Qed.

Lemma trim_start_clean (s : string) : clean_head (trim_start s) = true.
Proof.
  induction s as [|c s IH]; simpl; [reflexivity|].
  destruct (is_white c) eqn:W; [exact IH|].
  simpl. now rewrite W.
Qed.

Lemma trim_start_of_clean (s : string) : clean_head s = true -> trim_start s = s.
Proof.
  destruct s as [|c s]; simpl; [reflexivity|].
  now destruct (is_white c).
Qed.

Lemma trim_end_clean (s : string) : clean_head s = true -> clean_head (trim_end s) = true.
Proof.
  destruct s as [|c s]; simpl; [reflexivity|].
  intros W. destruct (trim_end s); destruct (is_white c) eqn:E; simpl;
    try rewrite E; auto.
Qed.

Lemma trim_idempotent (s : string) : trim (trim s) = trim s.
Proof.
  unfold trim.
  rewrite (trim_start_of_clean (trim_end (trim_start s))).
  - apply trim_end_idempotent.
  - apply trim_end_clean, trim_start_clean.
Qed.

Lemma eqb_false_neq (a b : string) : String.eqb a b = false <-> a <> b.
Proof. apply String.eqb_neq. Qed.

(** On a trimmed, non-empty string [Number] yields a number exactly for the
    three shapes of numeral. *)
Lemma StringToNumber_forms (t : string) :
  trim t = t -> t <> "" ->
  (exists n, StringToNumber t = Some n) <->
  (decimal_exponent_form t || infinity_form t || radix_form t = true).
Proof.
  intros Ht Hne. unfold StringToNumber. rewrite Ht.
  destruct t as [|c t']; [congruence|].
  unfold radix_form, infinity_form, decimal_exponent_form, signed_decimal.
  destruct (non_decimal_integer (String c t')) as [n|].
  - rewrite orb_true_r. split; eauto.
  - rewrite orb_false_r.
    destruct (strip_sign (String c t')) as [neg u]; simpl.
    destruct (String.eqb u "Infinity").
    + rewrite orb_true_r. split; eauto.
    + rewrite orb_false_r.
      destruct (unsigned_decimal u) as [[ds p]|].
      * split; eauto.
      * split; [intros [n Hn]; discriminate | discriminate].
Qed.
(* ================================================================== *)
(** * Numbers read back from their text *)

Lemma append_empty_r (s : string) : s ++ "" = s.
Proof. induction s as [|c s IH]; simpl; [reflexivity | now rewrite IH]. Qed.

Lemma length_append (a b : string) :
  String.length (a ++ b) = (String.length a + String.length b)%nat.
Proof. induction a as [|c a IH]; simpl; [reflexivity | now rewrite IH]. Qed.

Lemma length_repeat_string (c : ascii) (n : nat) :
  String.length (repeat_string c n) = n.
Proof. induction n as [|n IH]; simpl; [reflexivity | now rewrite IH]. Qed.

Lemma take_drop (n : nat) (s : string) : take n s ++ drop n s = s.
Proof.
  revert s. induction n as [|n IH]; intros [|c s]; simpl; try reflexivity.
  now rewrite IH.
Qed.

Lemma length_take (n : nat) (s : string) :
  (n <= String.length s)%nat -> String.length (take n s) = n.
Proof.
  revert s. induction n as [|n IH]; intros [|c s]; simpl; intros H;
    try reflexivity; try lia.
  rewrite IH; [reflexivity | lia].
Qed.

(** What a decimal digit is not. *)
Lemma digit_is_not (c : ascii) :
  is_digit c = true ->
  is_white c = false /\ Ascii.eqb c "+" = false /\ Ascii.eqb c "-" = false /\
  Ascii.eqb c "." = false /\ Ascii.eqb c "I" = false /\ Ascii.eqb c "n" = false /\
  Ascii.eqb c "t" = false /\ Ascii.eqb c "f" = false.
Proof.
  destruct c as [[] [] [] [] [] [] [] []]; vm_compute; intros H;
    try discriminate H; repeat split.
Qed.

Lemma no_white_append (a b : string) :
  no_white (a ++ b) = no_white a && no_white b.
Proof.
  induction a as [|c a IH]; simpl; [reflexivity|].
  now rewrite IH, andb_assoc.
Qed.

Lemma trim_end_no_white (s : string) : no_white s = true -> trim_end s = s.
Proof.
  induction s as [|c s IH]; simpl; [reflexivity|].
  intros H. apply andb_true_iff in H. destruct H as [Hc Hs].
  rewrite (IH Hs). apply negb_true_iff in Hc. rewrite Hc.
  now destruct s.
Qed.

Lemma trim_no_white (s : string) : no_white s = true -> trim s = s.
Proof.
  intros H. unfold trim. rewrite trim_start_of_clean.
  - now apply trim_end_no_white.
  - destruct s as [|c s]; simpl in *; [reflexivity|].
    now apply andb_true_iff in H.
Qed.

Lemma all_digits_append (a b : string) :
  all_digits (a ++ b) = all_digits a && all_digits b.
Proof.
  induction a as [|c a IH]; simpl; [reflexivity|].
  now rewrite IH, andb_assoc.
Qed.

Lemma all_digits_zeros (n : nat) : all_digits (repeat_string "0" n) = true.
Proof. induction n as [|n IH]; simpl; auto. Qed.

Lemma all_digits_take (n : nat) (s : string) :
  all_digits s = true -> all_digits (take n s) = true.
Proof.
  revert s. induction n as [|n IH]; intros [|c s]; simpl; auto.
  intros H. apply andb_true_iff in H. destruct H as [Hc Hs].
  now rewrite Hc, IH.
Qed.

Lemma all_digits_drop (n : nat) (s : string) :
  all_digits s = true -> all_digits (drop n s) = true.
Proof.
  revert s. induction n as [|n IH]; intros [|c s]; simpl; auto.
  intros H. apply andb_true_iff in H. destruct H as [Hc Hs]. auto.
Qed.

Lemma all_digits_no_white (s : string) : all_digits s = true -> no_white s = true.
Proof.
  induction s as [|c s IH]; simpl; [reflexivity|].
  intros H. apply andb_true_iff in H. destruct H as [Hc Hs].
  destruct (digit_is_not c Hc) as [-> _]. simpl. auto.
Qed.

Lemma all_digits_of_uint (u : Decimal.uint) :
  all_digits (NilEmpty.string_of_uint u) = true.
Proof. induction u; simpl; auto. Qed.

Lemma N_to_uint_nonnil (v : N) : N.to_uint v <> Decimal.Nil.
Proof.
  destruct v as [|p]; simpl; [discriminate|].
  apply DecimalPos.Unsigned.to_uint_nonnil.
Qed.

Lemma decimal_of_N_digits (v : N) :
  all_digits (decimal_of_N v) = true /\ decimal_of_N v <> "".
Proof.
  unfold decimal_of_N. pose proof (N_to_uint_nonnil v) as Hn.
  destruct (N.to_uint v) as [|u|u|u|u|u|u|u|u|u|u] eqn:E; try congruence;
    (split; [apply (all_digits_of_uint (N.to_uint v)) || (simpl; apply all_digits_of_uint)
            | discriminate]).
Qed.

(** The decimal text of a natural number reads back as that number. *)
Lemma decimal_value_of_N (v : N) : decimal_value (decimal_of_N v) = Some v.
Proof.
  unfold decimal_value, decimal_of_N.
  rewrite NilZero.usu by apply N_to_uint_nonnil.
  simpl. now rewrite DecimalN.Unsigned.of_to.
Qed.

Lemma span_digits_all (a : string) : all_digits a = true -> span_digits a = (a, "").
Proof.
  induction a as [|c a IH]; simpl; [reflexivity|].
  intros H. apply andb_true_iff in H. destruct H as [Hc Ha].
  now rewrite Hc, IH.
Qed.

Lemma span_digits_stop (a : string) (c : ascii) (b : string) :
  all_digits a = true -> is_digit c = false ->
  span_digits (a ++ String c b) = (a, String c b).
Proof.
  intros Ha Hc. induction a as [|x a IH]; simpl.
  - now rewrite Hc.
  - simpl in Ha. apply andb_true_iff in Ha. destruct Ha as [Hx Ha].
    now rewrite Hx, IH.
Qed.

Lemma strip_trailing_zeros_zeros (j : nat) :
  strip_trailing_zeros (repeat_string "0" j) = "".
Proof. induction j as [|j IH]; simpl; [reflexivity | now rewrite IH]. Qed.

Lemma strip_trailing_zeros_append (a : string) (j : nat) :
  strip_trailing_zeros (a ++ repeat_string "0" j) = strip_trailing_zeros a.
Proof.
  induction a as [|c a IH]; simpl.
  - apply strip_trailing_zeros_zeros.
  - now rewrite IH.
Qed.

Lemma strip_leading_zeros_zeros (j : nat) (ds : string) :
  strip_leading_zeros ds = (O, ds) ->
  strip_leading_zeros (repeat_string "0" j ++ ds) = (j, ds).
Proof.
  intros H. induction j as [|j IH]; simpl; [exact H | now rewrite IH].
Qed.

Lemma strip_leading_zeros_head (c : ascii) (r : string) :
  strip_leading_zeros (String c r) = (O, String c r) -> Ascii.eqb c "0" = false.
Proof.
  simpl. destruct (Ascii.eqb c "0"); [|reflexivity].
  destruct (strip_leading_zeros r). discriminate.
Qed.

(** Digits in canonical form are their own normal form, whatever zeros
    follow or precede them. *)
Lemma normalize_trailing (neg : bool) (d : ascii) (rest : string) (j : nat) (n : Z) :
  strip_leading_zeros (String d rest) = (O, String d rest) ->
  strip_trailing_zeros (String d rest) = String d rest ->
  normalize neg (String d rest ++ repeat_string "0" j) n = Finite neg (String d rest) n.
Proof.
  intros Hl Ht. unfold normalize.
  pose proof (strip_leading_zeros_head Hl) as Hd.
  change (String d rest ++ repeat_string "0" j)
    with (String d (rest ++ repeat_string "0" j)).
  cbn [strip_leading_zeros]. rewrite Hd.
  change (String d (rest ++ repeat_string "0" j))
    with (String d rest ++ repeat_string "0" j).
  rewrite strip_trailing_zeros_append, Ht.
  now rewrite Z.sub_0_r.
Qed.

Lemma normalize_canonical (neg : bool) (d : ascii) (rest : string) (n : Z) :
  strip_leading_zeros (String d rest) = (O, String d rest) ->
  strip_trailing_zeros (String d rest) = String d rest ->
  normalize neg (String d rest) n = Finite neg (String d rest) n.
Proof.
  intros Hl Ht.
  rewrite <- (normalize_trailing neg 0 n Hl Ht) at 1.
  simpl. now rewrite append_empty_r.
Qed.

Lemma normalize_leading (neg : bool) (d : ascii) (rest : string) (j : nat) :
  strip_leading_zeros (String d rest) = (O, String d rest) ->
  strip_trailing_zeros (String d rest) = String d rest ->
  normalize neg ("0" ++ repeat_string "0" j ++ String d rest) 1
  = Finite neg (String d rest) (- Z.of_nat j).
Proof.
  intros Hl Ht. unfold normalize.
  change ("0" ++ repeat_string "0" j ++ String d rest)
    with (repeat_string "0" (S j) ++ String d rest).
  rewrite (strip_leading_zeros_zeros (S j) Hl), Ht.
  f_equal. lia.
Qed.

(** The exponent an exponent notation writes is the one read. *)
Lemma exponent_part_of_Z (e : Z) :
  exponent_part ((if (e <? 0)%Z then "-" else "+") ++ decimal_of_N (Z.to_N (Z.abs e)))
  = Some e.
Proof.
  unfold exponent_part.
  destruct (e <? 0)%Z eqn:E; simpl; rewrite decimal_value_of_N; f_equal.
  - apply Z.ltb_lt in E. lia.
  - apply Z.ltb_ge in E. lia.
Qed.

(** Reading an unsigned decimal literal given by its parts: the integer
    digits, the fraction digits after a point when there is one, and the
    text of the exponent after its [e] when there is one. *)
Lemma unsigned_decimal_parts (ip fp : string) (dot : bool) (expo : option string) :
  all_digits ip = true ->
  all_digits fp = true ->
  (dot = false -> fp = "") ->
  unsigned_decimal
    (ip ++ (if dot then "." ++ fp else "")
        ++ match expo with Some r3 => "e" ++ r3 | None => "" end)
  = match ip ++ fp with
    | EmptyString => None
    | ds =>
        match expo with
        | None => Some (ds, Z.of_nat (String.length ip))
        | Some r3 =>
            match exponent_part r3 with
            | Some e => Some (ds, (Z.of_nat (String.length ip) + e)%Z)
            | None => None
            end
        end
    end.
Proof.
  intros Hip Hfp Hdot. unfold unsigned_decimal.
  destruct dot.
  - change (ip ++ ("." ++ fp) ++ match expo with Some r3 => "e" ++ r3 | None => "" end)
      with (ip ++ String "." (fp ++ match expo with Some r3 => "e" ++ r3 | None => "" end)).
    rewrite span_digits_stop by auto.
    change (Ascii.eqb "." ".") with true. cbv beta iota.
    destruct expo as [r3|].
    + change (fp ++ "e" ++ r3) with (fp ++ String "e" r3).
      rewrite span_digits_stop by auto. reflexivity.
    + rewrite append_empty_r, span_digits_all by auto. reflexivity.
  - rewrite (Hdot eq_refl).
    change (ip ++ "" ++ match expo with Some r3 => "e" ++ r3 | None => "" end)
      with (ip ++ match expo with Some r3 => String "e" r3 | None => "" end).
    destruct expo as [r3|].
    + rewrite span_digits_stop by auto.
      change (Ascii.eqb "e" ".") with false. cbv beta iota.
      rewrite append_empty_r. reflexivity.
    + rewrite append_empty_r, span_digits_all by auto.
      cbv beta iota. rewrite append_empty_r. reflexivity.
Qed.

Lemma unsigned_decimal_integer (ip : string) :
  all_digits ip = true -> ip <> "" ->
  unsigned_decimal ip = Some (ip, Z.of_nat (String.length ip)).
Proof.
  intros Hip Hne.
  pose proof (@unsigned_decimal_parts ip "" false None Hip eq_refl (fun _ => eq_refl)) as H.
  cbn [append] in H. rewrite !append_empty_r in H.
  rewrite H. destruct ip; [congruence | reflexivity].
Qed.

Lemma unsigned_decimal_fraction (ip fp : string) :
  all_digits ip = true -> all_digits fp = true -> ip ++ fp <> "" ->
  unsigned_decimal (ip ++ "." ++ fp) = Some (ip ++ fp, Z.of_nat (String.length ip)).
Proof.
  intros Hip Hfp Hne.
  pose proof (@unsigned_decimal_parts ip fp true None Hip Hfp) as H.
  change (ip ++ ("." ++ fp) ++ "") with (ip ++ "." ++ (fp ++ "")) in H.
  rewrite !append_empty_r in H.
  rewrite H by discriminate. destruct (ip ++ fp); [congruence | reflexivity].
Qed.

Lemma unsigned_decimal_exponent (ip fp : string) (dot : bool) (r3 : string) (e : Z) :
  all_digits ip = true -> all_digits fp = true -> (dot = false -> fp = "") ->
  ip ++ fp <> "" -> exponent_part r3 = Some e ->
  unsigned_decimal (ip ++ (if dot then "." ++ fp else "") ++ "e" ++ r3)
  = Some (ip ++ fp, (Z.of_nat (String.length ip) + e)%Z).
Proof.
  intros Hip Hfp Hdot Hne He.
  rewrite (@unsigned_decimal_parts ip fp dot (Some r3) Hip Hfp Hdot), He.
  destruct (ip ++ fp); [congruence | reflexivity].
Qed.

Section PositiveText.
Variables (d : ascii) (rest : string).
Hypothesis Hd : is_digit d = true.
Hypothesis Hrest : all_digits rest = true.
Hypothesis Hl : strip_leading_zeros (String d rest) = (O, String d rest).
Hypothesis Ht : strip_trailing_zeros (String d rest) = String d rest.

Lemma canonical_all_digits : all_digits (String d rest) = true.
Proof using Hd Hrest. simpl. now rewrite Hd, Hrest. Qed.

(** The text of a positive number reads as digits and a position that
    normalize to the number. *)
Lemma positive_text_reads (neg : bool) (n : Z) :
  exists ds' p,
    unsigned_decimal (positive_text d rest n) = Some (ds', p) /\
    normalize neg ds' p = Finite neg (String d rest) n.
Proof.
  pose proof canonical_all_digits as Hds.
  unfold positive_text. cbv zeta.
  destruct ((Z.of_nat (String.length (String d rest)) <=? n) && (n <=? 21))%Z eqn:EA.
  { apply andb_true_iff in EA. destruct EA as [E1 _]. apply Z.leb_le in E1.
    rewrite unsigned_decimal_integer.
    - eexists _, _. split; [reflexivity|].
      rewrite length_append, length_repeat_string.
      replace (Z.of_nat (String.length (String d rest)
                         + Z.to_nat (n - Z.of_nat (String.length (String d rest)))))
        with n by lia.
      now apply normalize_trailing.
    - now rewrite all_digits_append, Hds, all_digits_zeros.
    - discriminate. }
  destruct ((0 <? n) && (n <=? 21))%Z eqn:EB.
  { apply andb_true_iff in EB. destruct EB as [E1 E2].
    apply Z.ltb_lt in E1. apply Z.leb_le in E2.
    assert (Hnk : (n < Z.of_nat (String.length (String d rest)))%Z).
    { apply andb_false_iff in EA. destruct EA as [EA|EA]; apply Z.leb_gt in EA; lia. }
    rewrite unsigned_decimal_fraction;
      auto using all_digits_take, all_digits_drop.
    - rewrite take_drop. eexists _, _. split; [reflexivity|].
      rewrite length_take by lia. rewrite Z2Nat.id by lia.
      now apply normalize_canonical.
    - rewrite take_drop. discriminate. }
  destruct ((-6 <? n) && (n <=? 0))%Z eqn:EC.
  { apply andb_true_iff in EC. destruct EC as [_ E2]. apply Z.leb_le in E2.
    change ("0." ++ repeat_string "0" (Z.to_nat (- n)) ++ String d rest)
      with ("0" ++ "." ++ (repeat_string "0" (Z.to_nat (- n)) ++ String d rest)).
    rewrite unsigned_decimal_fraction; auto.
    - eexists _, _. split; [reflexivity|].
      change (Z.of_nat (String.length "0")) with 1%Z.
      rewrite normalize_leading by assumption.
      f_equal. lia.
    - now rewrite all_digits_append, all_digits_zeros.
    - discriminate. }
  pose proof (exponent_part_of_Z (n - 1)) as He.
  destruct rest as [|c rest'] eqn:Erest.
  - change (String d "" ++ "e" ++ ?x) with (String d "" ++ "" ++ "e" ++ x).
    rewrite (@unsigned_decimal_exponent (String d "") "" false _ _ Hds eq_refl
               (fun _ => eq_refl)) by (discriminate || exact He).
    eexists _, _. split; [reflexivity|].
    change (Z.of_nat (String.length (String d ""))) with 1%Z.
    replace (1 + (n - 1))%Z with n by lia.
    now apply normalize_canonical.
  - assert (Hd1 : all_digits (String d "") = true) by (simpl; now rewrite Hd).
    change (String d ("." ++ String c rest') ++ "e" ++ ?x)
      with (String d "" ++ ("." ++ String c rest') ++ "e" ++ x).
    rewrite (@unsigned_decimal_exponent (String d "") (String c rest') true _ _
               Hd1 Hrest) by (discriminate || exact He).
    eexists _, _. split; [reflexivity|].
    change (Z.of_nat (String.length (String d ""))) with 1%Z.
    replace (1 + (n - 1))%Z with n by lia.
    now apply normalize_canonical.
Qed.
End PositiveText.

(** The text of a positive number begins with its first digit, or with
    [0.] for a number below one. *)
Lemma positive_text_head (d : ascii) (rest : string) (n : Z) :
  exists r, positive_text d rest n = String d r \/
            positive_text d rest n = String "0" (String "." r).
Proof.
  unfold positive_text. cbv zeta.
  destruct ((Z.of_nat (String.length (String d rest)) <=? n) && (n <=? 21))%Z;
    [eexists; left; reflexivity|].
  destruct ((0 <? n) && (n <=? 21))%Z eqn:EB.
  { apply andb_true_iff in EB. destruct EB as [E1 _]. apply Z.ltb_lt in E1.
    destruct (Z.to_nat n) as [|m] eqn:En; [lia|].
    eexists; left; reflexivity. }
  destruct ((-6 <? n) && (n <=? 0))%Z; [eexists; right; reflexivity|].
  destruct rest; eexists; left; reflexivity.
Qed.

Section PositiveTextShape.
Variables (d : ascii) (rest : string).
Hypothesis Hd : is_digit d = true.
Hypothesis Hrest : all_digits rest = true.

Lemma positive_text_no_white (n : Z) : no_white (positive_text d rest n) = true.
Proof.
  assert (Hds : all_digits (String d rest) = true) by (simpl; now rewrite Hd, Hrest).
  assert (Hdw : is_white d = false) by (now destruct (digit_is_not d Hd)).
  unfold positive_text. cbv zeta.
  destruct ((Z.of_nat (String.length (String d rest)) <=? n) && (n <=? 21))%Z.
  { apply all_digits_no_white.
    now rewrite all_digits_append, Hds, all_digits_zeros. }
  destruct ((0 <? n) && (n <=? 21))%Z.
  { rewrite no_white_append.
    rewrite (all_digits_no_white _ (all_digits_take _ _ Hds)).
    change ("." ++ drop (Z.to_nat n) (String d rest))
      with (String "." (drop (Z.to_nat n) (String d rest))).
    cbn [no_white andb].
    now rewrite (all_digits_no_white _ (all_digits_drop _ _ Hds)). }
  destruct ((-6 <? n) && (n <=? 0))%Z.
  { change ("0." ++ repeat_string "0" (Z.to_nat (- n)) ++ String d rest)
      with (String "0" (String "." (repeat_string "0" (Z.to_nat (- n)) ++ String d rest))).
    cbn [no_white]. change (is_white "0") with false. change (is_white ".") with false.
    cbn [negb andb]. apply all_digits_no_white.
    now rewrite all_digits_append, all_digits_zeros. }
  assert (Hexp : no_white ("e" ++ (if (n - 1 <? 0)%Z then "-" else "+")
                               ++ decimal_of_N (Z.to_N (Z.abs (n - 1)))) = true).
  { destruct (decimal_of_N_digits (Z.to_N (Z.abs (n - 1)))) as [Hdig _].
    apply all_digits_no_white in Hdig.
    destruct (n - 1 <? 0)%Z; cbn; now rewrite Hdig. }
  rewrite no_white_append, Hexp, andb_true_r.
  destruct rest as [|c rest'].
  - cbn [no_white]. now rewrite Hdw.
  - change (String d ("." ++ String c rest')) with (String d (String "." (String c rest'))).
    cbn [no_white]. rewrite Hdw. change (is_white ".") with false. cbn [negb andb].
    now apply (all_digits_no_white (String c rest')).
Qed.
End PositiveTextShape.

Lemma non_decimal_integer_head (c : ascii) (r : string) :
  Ascii.eqb c "0" = false -> non_decimal_integer (String c r) = None.
Proof.
  intros H. destruct r as [|p [|q r]]; simpl; try reflexivity. now rewrite H.
Qed.

Lemma non_decimal_integer_point (r : string) :
  non_decimal_integer (String "0" (String "." r)) = None.
Proof. destruct r; reflexivity. Qed.

(** What [Number] reads in a text without white space around it that is
    not a radix literal. *)
Lemma StringToNumber_decimal (c : ascii) (r : string) :
  no_white (String c r) = true ->
  non_decimal_integer (String c r) = None ->
  StringToNumber (String c r) = signed_decimal (String c r).
Proof.
  intros Hw Hn. unfold StringToNumber. rewrite (trim_no_white _ Hw). now rewrite Hn.
Qed.

(** A well-formed number is what [Number] reads in its own text. *)
Lemma StringToNumber_NumberToString (x : number) :
  well_formed x ->
  exists c r, NumberToString x = String c r /\
              no_white (String c r) = true /\
              Ascii.eqb c "n" = false /\ Ascii.eqb c "t" = false /\
              Ascii.eqb c "f" = false /\
              StringToNumber (String c r) = Some x.
Proof.
  destruct x as [neg ds n|neg]; simpl.
  2:{ intros _. destruct neg; eexists _, _; repeat split; reflexivity. }
  intros [(-> & -> & ->)|(Hne & Hdig & Hl & Ht)].
  { eexists _, _; repeat split; reflexivity. }
  destruct ds as [|d rest]; [congruence|].
  pose proof Hdig as Hdig'. simpl in Hdig'. apply andb_true_iff in Hdig'.
  destruct Hdig' as [Hd Hrest].
  pose proof (strip_leading_zeros_head Hl) as Hnz.
  destruct (digit_is_not d Hd) as (Hdw & Hplus & Hminus & Hpoint & HI & Hn & Htt & Hf).
  destruct (@positive_text_reads d rest Hd Hrest Hl Ht neg n) as (ds' & p & Hread & Hnorm).
  pose proof (@positive_text_no_white d rest Hd Hrest n) as Hwhite.
  destruct (positive_text_head d rest n) as (r & Hhead).
  assert (Hbody : exists c r',
             positive_text d rest n = String c r' /\ is_digit c = true /\
             non_decimal_integer (String c r') = None).
  { destruct Hhead as [E|E]; rewrite E.
    - exists d, r. repeat split; auto. now apply non_decimal_integer_head.
    - exists "0"%char, (String "." r). repeat split.
      apply non_decimal_integer_point. }
  destruct Hbody as (c & r' & Ebody & Hc & Hnd).
  rewrite Ebody in *.
  destruct (digit_is_not c Hc) as (_ & Hcplus & Hcminus & _ & HcI & Hcn & Hct & Hcf).
  assert (Hsigned : forall sign : bool,
             signed_decimal (if sign then "-" ++ String c r' else String c r')
             = match unsigned_decimal (String c r') with
               | Some (ds0, p0) => Some (normalize sign ds0 p0)
               | None => None
               end).
  { intros sign. unfold signed_decimal.
    destruct sign.
    - change (strip_sign ("-" ++ String c r')) with (true, String c r').
      cbn [String.eqb]. now rewrite HcI.
    - unfold strip_sign. rewrite Hcplus, Hcminus.
      cbn [String.eqb]. now rewrite HcI. }
  destruct neg.
  - exists "-"%char, (String c r'). repeat split.
    + cbn [no_white]. change (is_white "-") with false. exact Hwhite.
    + rewrite StringToNumber_decimal.
      * change (String "-" (String c r')) with ("-" ++ String c r').
        rewrite (Hsigned true), Hread, Hnorm. reflexivity.
      * cbn [no_white]. change (is_white "-") with false. exact Hwhite.
      * now apply non_decimal_integer_head.
  - exists c, r'. repeat split; auto.
    rewrite StringToNumber_decimal by assumption.
    rewrite (Hsigned false), Hread, Hnorm. reflexivity.
Qed.

(** A well-formed number survives an edit that changes nothing. *)
Lemma number_survives_edit (x : number) : well_formed x -> survives_edit (PNum x).
Proof.
  intros Hwf. unfold survives_edit, field_text, ToString, parseDraftValue.
  destruct (StringToNumber_NumberToString x Hwf)
    as (c & r & -> & Hw & Hn & Ht & Hf & Hread).
  cbv zeta. rewrite (trim_no_white _ Hw).
  cbn [String.eqb]. rewrite Hn, Ht, Hf. simpl negb. cbv iota.
  now rewrite Hread.
Qed.

Lemma boolean_survives_edit (b : bool) : survives_edit (PBool b).
Proof. now destruct b. Qed.

(** A string survives exactly when it is read back as a string. *)
Lemma string_survives_edit (s : string) :
  survives_edit (PStr s) <-> parseDraftValue s = PStr s.
Proof. reflexivity. Qed.

(** [null] does not survive: its field shows the empty text, which is read
    back as the empty string. *)
Lemma null_does_not_survive_edit : ~ survives_edit PNull.
Proof. discriminate. Qed.

(* ================================================================== *)
(** * Own properties *)

Section OwnFacts.
Variable A : Type.
Implicit Types (m : props A) (k : string) (v : A).

Lemma own_get_replace_same m k v x :
  own_get m k = Some x -> own_get (own_replace m k v) k = Some v.
Proof.
  induction m as [|[k' v'] m IH]; simpl; [discriminate|].
  destruct (String.eqb k' k) eqn:E; simpl; rewrite E; auto.
Qed.

Lemma own_get_replace_other m k k' v :
  k' <> k -> own_get (own_replace m k v) k' = own_get m k'.
Proof.
  intros Hne. induction m as [|[k0 v0] m IH]; simpl; [reflexivity|].
  destruct (String.eqb k0 k) eqn:E; simpl.
  - apply String.eqb_eq in E. subst k0.
    destruct (String.eqb k k') eqn:E'; [|reflexivity].
    apply String.eqb_eq in E'. congruence.
  - now rewrite IH.
Qed.

Lemma own_replace_same_value m k v :
  own_get m k = Some v -> own_replace m k v = m.
Proof.
  induction m as [|[k' v'] m IH]; simpl; [reflexivity|].
  destruct (String.eqb k' k) eqn:E.
  - intros [= ->]. reflexivity.
  - intros H. now rewrite IH.
Qed.

Lemma own_get_insert_index_same m (i : N) k v :
  own_get m k = None -> own_get (own_insert_index m i k v) k = Some v.
Proof.
  induction m as [|[k' v'] m IH]; simpl.
  - now rewrite String.eqb_refl.
  - destruct (String.eqb k' k) eqn:E; [discriminate|]. intros H.
    destruct (array_index k') as [j|]; [destruct (j <? i)%N|]; simpl;
      rewrite ?E, ?String.eqb_refl; auto.
Qed.

Lemma own_get_insert_index_other m (i : N) k k' v :
  k' <> k -> own_get (own_insert_index m i k v) k' = own_get m k'.
Proof.
  intros Hne. apply not_eq_sym, String.eqb_neq in Hne.
  induction m as [|[k0 v0] m IH]; simpl.
  - now rewrite Hne.
  - destruct (array_index k0) as [j|]; [destruct (j <? i)%N|]; simpl;
      rewrite ?Hne, ?IH; reflexivity.
Qed.

Lemma own_get_app_same m k v :
  own_get m k = None -> own_get (m ++ [(k, v)])%list k = Some v.
Proof.
  induction m as [|[k' v'] m IH]; simpl.
  - now rewrite String.eqb_refl.
  - destruct (String.eqb k' k); [discriminate | exact IH].
Qed.

Lemma own_get_app_other m k k' v :
  k' <> k -> own_get (m ++ [(k, v)])%list k' = own_get m k'.
Proof.
  intros Hne. apply not_eq_sym, String.eqb_neq in Hne.
  induction m as [|[k0 v0] m IH]; simpl.
  - now rewrite Hne.
  - now rewrite IH.
Qed.

(** Reading back a written property. *)
Lemma own_get_set_same m k v : own_get (own_set m k v) k = Some v.
Proof.
  unfold own_set, own_insert.
  destruct (own_get m k) eqn:E.
  - eapply own_get_replace_same; eauto.
  - destruct (array_index k).
    + now apply own_get_insert_index_same.
    + now apply own_get_app_same.
Qed.

(** A write leaves the other properties alone. *)
Lemma own_get_set_other m k k' v :
  k' <> k -> own_get (own_set m k v) k' = own_get m k'.
Proof.
  intros Hne. unfold own_set, own_insert.
  destruct (own_get m k).
  - now apply own_get_replace_other.
  - destruct (array_index k).
    + now apply own_get_insert_index_other.
    + now apply own_get_app_other.
Qed.

(** Writing the value a property already has changes nothing. *)
Lemma own_set_same_value m k v : own_get m k = Some v -> own_set m k v = m.
Proof.
  intros H. unfold own_set. rewrite H. now apply own_replace_same_value.
Qed.

Lemma own_get_In m k v : own_get m k = Some v -> In (k, v) m.
Proof.
  induction m as [|[k' v'] m IH]; simpl; [discriminate|].
  destruct (String.eqb k' k) eqn:E.
  - apply String.eqb_eq in E. intros [= ->]. subst. now left.
  - auto.
Qed.

Lemma In_own_get m k v :
  NoDup (map fst m) -> In (k, v) m -> own_get m k = Some v.
Proof.
  induction m as [|[k' v'] m IH]; simpl; [tauto|].
  intros Hnd [H|H].
  - injection H as -> ->. now rewrite String.eqb_refl.
  - inversion Hnd as [|? ? Hnot Hnd']; subst.
    destruct (String.eqb k' k) eqn:E; [|auto].
    apply String.eqb_eq in E. subst k'.
    exfalso. apply Hnot. apply (in_map fst) in H. exact H.
Qed.

Lemma In_own_replace m k v e :
  In e (own_replace m k v) -> e = (k, v) \/ In e m.
Proof.
  induction m as [|[k' v'] m IH]; simpl; [tauto|].
  destruct (String.eqb k' k) eqn:E; simpl.
  - apply String.eqb_eq in E. subst k'. intros [H|H]; auto.
  - intros [H|H]; auto. destruct (IH H); auto.
Qed.

Lemma In_own_insert_index m (i : N) k v e :
  In e (own_insert_index m i k v) -> e = (k, v) \/ In e m.
Proof.
  induction m as [|[k' v'] m IH]; simpl.
  - intros [H|[]]; auto.
  - destruct (array_index k') as [j|]; [destruct (j <? i)%N|]; simpl.
    + intros [H|H]; auto. destruct (IH H); auto.
    + intros [H|[H|H]]; auto.
    + intros [H|[H|H]]; auto.
Qed.

(** A write adds no entry but the one written. *)
Lemma In_own_set m k v e : In e (own_set m k v) -> e = (k, v) \/ In e m.
Proof.
  unfold own_set, own_insert. destruct (own_get m k).
  - apply In_own_replace.
  - destruct (array_index k).
    + apply In_own_insert_index.
    + intros H. apply in_app_or in H. destruct H as [H|[H|[]]]; auto.
Qed.
End OwnFacts.

(* ================================================================== *)
(** * Reads and writes on document values *)

Lemma nth_error_array_set (l : list Json) (i : nat) (v : Json) :
  nth_error (array_set l i v) i = Some v.
Proof.
  revert l. induction i as [|i IH]; intros [|x l]; simpl; auto.
Qed.

Lemma array_set_same_value (l : list Json) (i : nat) (v : Json) :
  nth_error l i = Some v -> array_set l i v = l.
Proof.
  revert l. induction i as [|i IH]; intros [|x l]; simpl; try discriminate.
  - now intros [= ->].
  - intros H. now rewrite IH.
Qed.

(** Under a name that is not a slot nothing of the document is read. *)
Lemma absent_found (kind : Kind) (s : Seg) (child : Json) :
  absent kind s = Found child -> False.
Proof. unfold absent. destruct (builtin_name kind (seg_key s)); discriminate. Qed.

Lemma absent_type_error (kind : Kind) (s : Seg) : absent kind s = TypeError -> False.
Proof. unfold absent. destruct (builtin_name kind (seg_key s)); discriminate. Qed.

(** A primitive has characters under it at most. *)
Lemma js_get_prim_char (p : Prim) (s : Seg) (child : Json) :
  js_get (JPrim p) s = Found child -> exists c, child = JPrim (PStr c).
Proof.
  destruct p; simpl; try discriminate;
    try (intros H; now apply absent_found in H).
  destruct (seg_index s); [|intros H; now apply absent_found in H].
  destruct (String.get _ _); [|discriminate].
  intros [= <-]. eauto.
Qed.

Lemma js_get_prim (p : Prim) (s : Seg) (child : Json) :
  js_get (JPrim p) s = Found child -> is_container child = false.
Proof.
  intros H. apply js_get_prim_char in H. destruct H as [c ->]. reflexivity.
Qed.

(** Only [null] raises on a read. *)
Lemma js_get_type_error (parent : Json) (s : Seg) :
  js_get parent s = TypeError -> parent = JPrim PNull.
Proof.
  destruct parent as [[| | |str]|l|m]; simpl; auto; intros H; exfalso.
  - now apply absent_type_error in H.
  - now apply absent_type_error in H.
  - destruct (seg_index s); [destruct (String.get _ _); discriminate|].
    now apply absent_type_error in H.
  - destruct (seg_index s); [destruct (nth_error _ _); discriminate|].
    now apply absent_type_error in H.
  - destruct (own_get _ _); [discriminate|]. now apply absent_type_error in H.
Qed.

Lemma js_get_found_holds (parent : Json) (s : Seg) (child : Json) :
  is_container parent = true -> js_get parent s = Found child ->
  holds_slot parent s = true.
Proof.
  destruct parent as [p|l|m]; simpl; try discriminate; intros _.
  - destruct (seg_index s); [reflexivity|].
    intros H. now apply absent_found in H.
  - destruct (own_get m (seg_key s)); [reflexivity|].
    intros H. now apply absent_found in H.
Qed.

(** The write to a slot that a container holds, written out. *)
Lemma js_set_holds (parent : Json) (s : Seg) (v : Json) :
  holds_slot parent s = true ->
  js_set parent s v
  = Ok (match parent with
        | JObj m => JObj (own_set m (seg_key s) v)
        | JArr l => match seg_index s with
                    | Some i => JArr (array_set l (N.to_nat i) v)
                    | None => parent
                    end
        | JPrim _ => parent
        end).
Proof.
  destruct parent as [p|l|m]; cbn [holds_slot js_set]; [discriminate| |].
  - destruct (seg_index s); [reflexivity|discriminate].
  - destruct (own_get m (seg_key s)); [reflexivity|].
    destruct (String.eqb (seg_key s) proto); [discriminate|reflexivity].
Qed.

(** A write into a container that holds the slot succeeds and reads back. *)
Lemma js_set_get (parent : Json) (s : Seg) (v : Json) :
  holds_slot parent s = true ->
  exists parent', js_set parent s v = Ok parent' /\ js_get parent' s = Found v.
Proof.
  intros H. rewrite (js_set_holds _ _ v H).
  destruct parent as [p|l|m]; simpl in H; [discriminate| |].
  - destruct (seg_index s) as [i|] eqn:E; [|discriminate].
    eexists. split; [reflexivity|]. simpl. rewrite E.
    now rewrite nth_error_array_set.
  - eexists. split; [reflexivity|]. simpl.
    now rewrite own_get_set_same.
Qed.

Lemma js_replace_get (parent : Json) (s : Seg) (child : Json) :
  holds_slot parent s = true -> js_get (js_replace parent s child) s = Found child.
Proof.
  intros H. unfold js_replace.
  destruct (js_set_get parent s child H) as (p' & -> & Hg). exact Hg.
Qed.

(** Writing back the value a slot holds leaves the parent as it is. *)
Lemma js_replace_same_value (parent : Json) (s : Seg) (child : Json) :
  js_get parent s = Found child -> js_replace parent s child = parent.
Proof.
  unfold js_replace. destruct parent as [p|l|m]; cbn [js_get js_set].
  - intros H. rewrite H. reflexivity.
  - destruct (seg_index s) as [i|]; [|intros H; now apply absent_found in H].
    destruct (nth_error l (N.to_nat i)) eqn:E; [|discriminate].
    intros [= ->]. now rewrite array_set_same_value.
  - destruct (own_get m (seg_key s)) eqn:E; [|intros H; now apply absent_found in H].
    intros [= ->]. now rewrite own_set_same_value.
Qed.

(** What the runtime provides is neither undefined nor document data:
    [constructor] on an object, the [length] of an array and of a string,
    a method of a boolean.  A write under [__proto__] adds no member, a
    write under the [length] of an array leaves the document, and a name
    of the runtime that is a member of the object is that member.  A walk
    through such a name is not stopped by the guard of the loop: it leaves
    the document, and the runtime has the rest. *)
Lemma runtime_names_are_told_apart :
  js_get (JObj [("a", JPrim (PBool true))]) (Key "constructor") = Builtin /\
  js_get (JObj [("a", JPrim (PBool true))]) (Key "__proto__") = Builtin /\
  js_get (JObj [("a", JPrim (PBool true))]) (Key "b") = Undefined /\
  js_get (JArr []) (Key "length") = Builtin /\
  js_get (JPrim (PStr "abc")) (Key "length") = Builtin /\
  js_get (JPrim (PBool true)) (Key "toString") = Builtin /\
  js_get (JObj [("constructor", JPrim PNull)]) (Key "constructor") = Found (JPrim PNull) /\
  js_set (JObj []) (Key "__proto__") (JPrim (PStr "x")) = Ok (JObj []) /\
  js_set (JObj []) (Key "constructor") (JPrim (PStr "x"))
  = Ok (JObj [("constructor", JPrim (PStr "x"))]) /\
  js_set (JArr [JPrim PNull]) (Key "length") (JPrim (PStr "abc")) = Leaves /\
  NodeModal.extractEditableFields
    [{| key := Some "__proto__"; value := Some (PStr "x"); type := TString |};
     {| key := Some "a"; value := Some (PStr "y"); type := TString |}]
  = [("a", "y")] /\
  NodeModal.update (JObj [("a", JPrim (PBool true))]) [Key "constructor"; Key "x"]
    [("x", "1")] = Leaves /\
  TextNode.update (JArr [JPrim PNull]) [Key "length"] "abc" = Leaves.
Proof. repeat split; reflexivity. Qed.

Lemma get_path_app (v : Json) (p q : list Seg) :
  get_path v (p ++ q) =
  match get_path v p with
  | Found c => get_path c q
  | other => other
  end.
Proof.
  revert v. induction p as [|s p IH]; intros v; simpl; [reflexivity|].
  destruct (js_get v s); auto.
Qed.

(** Reading the last segment of a path. *)
Lemma get_path_last (v : Json) (inter : list Seg) (l : Seg) :
  get_path v (inter ++ [l]) =
  match get_path v inter with
  | Found parent => js_get parent l
  | other => other
  end.
Proof.
  rewrite get_path_app. destruct (get_path v inter); auto.
  simpl. destruct (js_get v0 l); reflexivity.
Qed.

Lemma get_path_prim (p : Prim) (path : list Seg) (v : Json) :
  get_path (JPrim p) path = Found v -> is_container v = false.
Proof.
  revert p. induction path as [|s path IH]; intros p; cbn [get_path].
  - now intros [= <-].
  - destruct (js_get (JPrim p) s) as [child| | |] eqn:E; try discriminate.
    apply js_get_prim in E. destruct child; try discriminate. apply IH.
Qed.

(** Only containers lead to containers. *)
Lemma get_path_container (root : Json) (path : list Seg) (v : Json) :
  get_path root path = Found v -> is_container v = true -> is_container root = true.
Proof.
  destruct root as [p| |]; auto.
  intros H Hv. apply get_path_prim in H. congruence.
Qed.

(* ================================================================== *)
(** * The walk along the path *)

(** When the intermediate segments lead to a container and the final step
    succeeds on it, the walk succeeds and the new document holds the result
    of the final step where the container was. *)
Lemma descend_found (inter : list Seg) (final : Json -> Walk Json) :
  forall root parent parent',
    get_path root inter = Found parent ->
    is_container parent = true ->
    final parent = Ok parent' ->
    exists root', descend root inter final = Ok root' /\
                  get_path root' inter = Found parent'.
Proof.
  induction inter as [|s rest IH]; intros root parent parent' Hget Hc Hf;
    cbn [get_path descend] in *.
  - injection Hget as <-. eauto.
  - destruct (js_get root s) as [child| | |] eqn:E; try discriminate.
    destruct (IH child parent parent' Hget Hc Hf) as (child' & Hd & Hg).
    rewrite Hd. simpl. eexists. split; [reflexivity|].
    rewrite js_replace_get; [exact Hg|].
    eapply js_get_found_holds; eauto.
    destruct root; auto. apply js_get_prim in E.
    apply (get_path_container _ _ Hget) in Hc. congruence.
Qed.

(** When the final step leaves the container as it is, so does the walk
    leave the document. *)
Lemma descend_unchanged (inter : list Seg) (final : Json -> Walk Json) :
  forall root parent,
    get_path root inter = Found parent ->
    final parent = Ok parent ->
    descend root inter final = Ok root.
Proof.
  induction inter as [|s rest IH]; intros root parent Hget Hf;
    cbn [get_path descend] in *.
  - now injection Hget as <-.
  - destruct (js_get root s) as [child| | |] eqn:E; try discriminate.
    rewrite (IH child parent Hget Hf). simpl.
    now rewrite js_replace_same_value.
Qed.


(* ================================================================== *)
(** * The handlers, step by step *)

Lemma removelast_snoc (inter : list Seg) (l : Seg) : removelast (inter ++ [l]) = inter.
Proof. apply removelast_last. Qed.

Lemma last_snoc (inter : list Seg) (l d : Seg) : last (inter ++ [l]) d = l.
Proof. apply last_last. Qed.

(** A path that is not empty is its intermediate segments and its last key. *)
Lemma path_snoc (path : list Seg) :
  path <> [] -> exists inter l, path = (inter ++ [l])%list.
Proof.
  intros H. destruct (exists_last H) as (inter & l & ->). eauto.
Qed.

Lemma NodeModal_update_snoc (root : Json) (inter : list Seg) (l : Seg) (fields : props string) :
  NodeModal.update root (inter ++ [l]) fields
  = descend root inter (NodeModal.final_step l fields).
Proof.
  unfold NodeModal.update.
  destruct (inter ++ [l])%list as [|s p] eqn:E.
  - destruct inter; discriminate.
  - rewrite <- E, removelast_snoc, last_snoc. reflexivity.
Qed.

Lemma TextNode_update_snoc (root : Json) (inter : list Seg) (l : Seg) (draft : string) :
  TextNode.update root (inter ++ [l]) draft
  = descend root inter (TextNode.final_step l draft).
Proof.
  unfold TextNode.update. now rewrite removelast_snoc, last_snoc.
Qed.

(** The modal's save, once the text was parsed and the mutation went
    through: the new text goes to both stores. *)
Lemma NodeModal_handleSave_ok JSON_parse beyond (w : World) (nd : NodeData)
      (fields : props string) (root root' : Json) :
  parse_current JSON_parse (json w) = Ok root ->
  NodeModal.update root (NodeModal.path_of nd) fields = Ok root' ->
  NodeModal.handleSave JSON_parse beyond w (Some nd) fields
  = published_both (stringify root') w.
Proof.
  intros Hp Hu. unfold NodeModal.handleSave. rewrite Hp. simpl. rewrite Hu.
  reflexivity.
Qed.

(** The inline editor's save, past its two guards. *)
Lemma TextNode_handleSave_past_guards JSON_parse beyond (w : World) (value : option Prim)
      (path : list Seg) (draft : string) :
  path <> [] ->
  String.eqb (TextNode.shown value) draft = false ->
  TextNode.handleSave JSON_parse beyond w value (Some path) draft
  = TextNode.settle w (parsed <- parse_current JSON_parse (json w) ;;
                        landed (TextNode.update parsed path draft)
                               (beyond parsed path draft)).
Proof.
  intros Hne Hd. unfold TextNode.handleSave. rewrite Hd.
  destruct path; [congruence | reflexivity].
Qed.

(** The inline editor's save, once past its two guards, the parse and the
    mutation: the new text goes to the JSON store. *)
Lemma TextNode_handleSave_ok JSON_parse beyond (w : World) (value : option Prim)
      (path : list Seg) (draft : string) (parsed parsed' : Json) :
  TextNode.shown value <> draft ->
  path <> [] ->
  parse_current JSON_parse (json w) = Ok parsed ->
  TextNode.update parsed path draft = Ok parsed' ->
  TextNode.handleSave JSON_parse beyond w value (Some path) draft
  = published_json (stringify parsed') w.
Proof.
  intros Hd Hne Hp Hu. unfold TextNode.handleSave.
  apply String.eqb_neq in Hd. rewrite Hd.
  destruct path as [|s p]; [congruence|].
  rewrite Hp. simpl. rewrite Hu. reflexivity.
Qed.

(** A write of a member into an object goes through: it changes the
    member written at most, which then holds the value, unless the name is
    [__proto__] and no member: then nothing changes. *)
Lemma js_set_object (m : props Json) (k : string) (v : Json) :
  exists m1,
    js_set (JObj m) (Key k) v = Ok (JObj m1) /\
    (forall k', k' <> k -> own_get m1 k' = own_get m k') /\
    (k <> proto \/ own_get m proto <> None -> own_get m1 k = Some v) /\
    (k = proto -> own_get m proto = None -> m1 = m).
Proof.
  cbn [js_set seg_key].
  destruct (own_get m k) as [x|] eqn:E.
  - exists (own_set m k v). repeat split.
    + intros k' Hk. now apply own_get_set_other.
    + intros _. apply own_get_set_same.
    + intros ->. congruence.
  - destruct (String.eqb_spec k proto) as [->|Hk].
    + exists m. repeat split; auto. intros [H|H]; congruence.
    + exists (own_set m k v). repeat split.
      * intros k' Hk'. now apply own_get_set_other.
      * intros _. apply own_get_set_same.
      * congruence.
Qed.

(** Field by field assignment into an object never raises; it reads back
    every field and leaves the other members alone.  A field [__proto__]
    is read back when the object has a member of that name, and is
    without effect when it has none. *)
Lemma assign_fields_object (fields : props string) :
  forall m, exists m',
    NodeModal.assign_fields (JObj m) fields = Ok (JObj m') /\
    (forall k, ~ In k (map fst fields) -> own_get m' k = own_get m k) /\
    (NoDup (map fst fields) ->
     forall k raw, In (k, raw) fields ->
                   k <> proto \/ own_get m proto <> None ->
                   own_get m' k = Some (JPrim (parseDraftValue raw))) /\
    (own_get m proto = None -> own_get m' proto = None).
Proof.
  induction fields as [|[k0 r0] rest IH]; intros m.
  - exists m. repeat split; auto. intros _ k raw [].
  - destruct (js_set_object m k0 (JPrim (parseDraftValue r0)))
      as (m1 & Hs & Hoth1 & Hsame1 & Hno1).
    destruct (IH m1) as (m' & He & Hother & Hin & Hproto).
    exists m'. split; [|split; [|split]].
    + cbn [NodeModal.assign_fields]. rewrite Hs. exact He.
    + intros k Hk. simpl in Hk. rewrite Hother by tauto.
      apply Hoth1. intros ->. tauto.
    + intros Hnd k raw [H|H] Hk.
      * injection H as -> ->. inversion Hnd; subst.
        rewrite Hother by assumption. now apply Hsame1.
      * inversion Hnd as [|? ? Hnot Hnd']; subst.
        apply (Hin Hnd' k raw H).
        destruct Hk as [Hk|Hk]; [now left|].
        right. destruct (String.eqb_spec k0 proto) as [->|Hk0].
        -- rewrite Hsame1 by now right. discriminate.
        -- rewrite Hoth1 by (intros E; now apply Hk0). exact Hk.
    + intros Hm. apply Hproto.
      destruct (String.eqb_spec k0 proto) as [->|Hk0].
      * now rewrite (Hno1 eq_refl Hm).
      * rewrite Hoth1 by (intros E; now apply Hk0). exact Hm.
Qed.

(** Assigning to every field the value its member already has changes
    nothing. *)
Lemma assign_fields_same (fields : props string) (m : props Json) :
  (forall k raw, In (k, raw) fields ->
                 own_get m k = Some (JPrim (parseDraftValue raw))) ->
  NodeModal.assign_fields (JObj m) fields = Ok (JObj m).
Proof.
  induction fields as [|[k0 r0] rest IH]; intros H; [reflexivity|].
  cbn [NodeModal.assign_fields js_set seg_key].
  rewrite (H k0 r0) by now left.
  rewrite own_set_same_value by (apply H; now left).
  simpl. apply IH. intros k raw Hin. apply H. now right.
Qed.

(** Every extracted field comes from a row that is not a container and has
    a key, other than [__proto__], and shows the text of its value. *)
Lemma extract_fields_from_rows (rows : list NodeRow) :
  forall (acc : props string) k raw,
    In (k, raw)
       (fold_left
          (fun fields row =>
             if is_container_row row then fields
             else match truthy_key (key row) with
                  | Some k => NodeModal.field_set fields k (field_text (value row))
                  | None => fields
                  end) rows acc) ->
    In (k, raw) acc \/
    exists row, In row rows /\ is_container_row row = false /\
                truthy_key (key row) = Some k /\ k <> proto /\
                raw = field_text (value row).
Proof.
  induction rows as [|row rows IH]; intros acc k raw; simpl; [auto|].
  intros H. apply IH in H. destruct H as [H|(r & Hr & Hc & Hk & Hp & Hv)].
  - destruct (is_container_row row) eqn:Ec; [auto|].
    destruct (truthy_key (key row)) as [k'|] eqn:Ek; [|auto].
    unfold NodeModal.field_set in H.
    destruct (String.eqb_spec k' proto) as [->|Hk']; [auto|].
    apply In_own_set in H. destruct H as [H|H]; [|auto].
    injection H as -> ->. right. exists row. auto.
  - right. exists r. repeat split; auto.
Qed.

Lemma truthy_key_some (k0 : option string) (k : string) :
  truthy_key k0 = Some k -> k0 = Some k /\ k <> "".
Proof.
  destruct k0 as [s|]; simpl; [|discriminate].
  destruct (String.eqb s "") eqn:E; [discriminate|].
  intros [= ->]. apply String.eqb_neq in E. auto.
Qed.

(** The fields of the node of an object: each is a named primitive member
    and shows its text. *)
Lemma fields_of_object (m : props Json) (k raw : string) :
  In (k, raw) (NodeModal.extractEditableFields (rows_of_object m)) ->
  exists p, In (k, JPrim p) m /\ k <> "" /\ raw = field_text (Some p).
Proof.
  intros H. apply extract_fields_from_rows in H.
  destruct H as [[]|(row & Hr & Hc & Hk & _ & Hv)].
  unfold rows_of_object in Hr. apply in_map_iff in Hr.
  destruct Hr as ([k' v] & <- & Hin).
  destruct v as [p|l|m0]; try (simpl in Hc; discriminate).
  apply truthy_key_some in Hk. simpl in Hk, Hv. destruct Hk as [[= ->] Hne].
  exists p. auto.
Qed.

(* ================================================================== *)
(** * Coercion *)

(** C5, as stated, fails: the claim sends every input that is not [null],
    [true], [false] or a decimal/exponent numeral to the raw string, but
    [0x10] is none of these and is read as the number 16. *)
Lemma parseDraftValue_reads_radix_numeral :
  trim "0x10" = "0x10" /\
  decimal_exponent_form "0x10" = false /\
  parseDraftValue "0x10" = PNum (number_of_N 16) /\
  parseDraftValue "0x10" <> PStr "0x10".
Proof.
  repeat split; try reflexivity. discriminate.
Qed.

(** C5, amended: [parseDraftValue] is a total function of the raw string,
    decided on the trimmed text in this order: [null], [true], [false]; then
    a non-empty text that [Number] reads (a decimal/exponent numeral, a
    signed [Infinity], or a [0x], [0o], [0b] integer) gives that number;
    every other input gives back the raw string untrimmed.  So the empty
    string gives the empty string and [" hello "] itself.  The inline
    editor's copy is the same function. *)
Theorem parseDraftValue_classifies (raw : string) :
  (trim raw = "null" -> parseDraftValue raw = PNull) /\
  (trim raw = "true" -> parseDraftValue raw = PBool true) /\
  (trim raw = "false" -> parseDraftValue raw = PBool false) /\
  (trim raw <> "null" -> trim raw <> "true" -> trim raw <> "false" ->
   trim raw <> "" ->
   decimal_exponent_form (trim raw) || infinity_form (trim raw)
     || radix_form (trim raw) = true ->
   exists n, StringToNumber (trim raw) = Some n /\ parseDraftValue raw = PNum n) /\
  (trim raw <> "null" -> trim raw <> "true" -> trim raw <> "false" ->
   trim raw = "" \/
   decimal_exponent_form (trim raw) || infinity_form (trim raw)
     || radix_form (trim raw) = false ->
   parseDraftValue raw = PStr raw) /\
  parseDraftValue "" = PStr "" /\
  parseDraftValue " hello " = PStr " hello " /\
  TextNode.parseDraftValue raw = parseDraftValue raw.
Proof.
  unfold parseDraftValue. cbv zeta.
  pose proof (StringToNumber_forms (trim_idempotent raw)) as Hforms.
  set (t := trim raw) in *.
  repeat split; try reflexivity.
  - now intros ->.
  - now intros ->.
  - now intros ->.
  - intros H1 H2 H3 H4 Hf.
    apply String.eqb_neq in H1, H2, H3. rewrite H1, H2, H3.
    pose proof H4 as H4'. apply String.eqb_neq in H4'. rewrite H4'. simpl.
    apply (Hforms H4) in Hf. destruct Hf as [n Hn]. exists n. now rewrite Hn.
  - intros H1 H2 H3 H.
    apply String.eqb_neq in H1, H2, H3. rewrite H1, H2, H3.
    destruct (String.eqb_spec t "") as [E|E]; simpl; [reflexivity|].
    destruct H as [H|H]; [congruence|].
    pose proof (Hforms E) as Hf.
    destruct (StringToNumber t) as [n|]; [|reflexivity].
    assert (Hex : exists n0, Some n = Some n0) by eauto.
    apply Hf in Hex. congruence.
Qed.

Lemma parseDraftValue_classifies_witness :
  trim " 3.14e2 " <> "null" /\ trim " 3.14e2 " <> "true" /\
  trim " 3.14e2 " <> "false" /\ trim " 3.14e2 " <> "" /\
  decimal_exponent_form (trim " 3.14e2 ") = true /\
  parseDraftValue " 3.14e2 " = PNum (number_of_N 314).
Proof.
  assert (H1 : trim " 3.14e2 " <> "null") by (vm_compute; discriminate).
  assert (H2 : trim " 3.14e2 " <> "true") by (vm_compute; discriminate).
  assert (H3 : trim " 3.14e2 " <> "false") by (vm_compute; discriminate).
  assert (H4 : trim " 3.14e2 " <> "") by (vm_compute; discriminate).
  refine (conj H1 (conj H2 (conj H3 (conj H4 (conj eq_refl _))))).
  destruct (parseDraftValue_classifies " 3.14e2 ") as (_ & _ & _ & H & _).
  destruct (H H1 H2 H3 H4 eq_refl) as (n & Hn & Hp).
  rewrite Hp. vm_compute in Hn. injection Hn as <-. reflexivity.
Defined.

(* ================================================================== *)
(** * Projection *)

(** C2, as stated, fails: the lone unkeyed row ["x"] is displayed as [x],
    but no field is made for it, since a field needs a key. *)
Lemma project_unkeyed_row_not_synthetic :
  NodeModal.project [row_of (PStr "x")] = ("x", []) /\
  NodeModal.project [row_of (PStr "x")] <> ("x", [("", "x")]).
Proof.
  split; [reflexivity | discriminate].
Qed.

(** C2, amended: for a row list of exactly one row with no key ([null] or
    the empty string), the display is the raw string form of the row's
    value and the field set is empty:
    [project([{key: null, value: "x", type: "string"}])
     = { display: "x", fields: {} }]. *)
Theorem project_unkeyed_row (v : option Prim) (ty : RowType) :
  NodeModal.project [{| key := None; value := v; type := ty |}] = (template v, []) /\
  NodeModal.project [{| key := Some ""; value := v; type := ty |}] = (template v, []).
Proof.
  unfold NodeModal.project, NodeModal.normalizeNodeData, NodeModal.extractEditableFields.
  split; simpl; destruct (is_container_row _); reflexivity.
Qed.

(* ================================================================== *)
(** * Saving at the root, and what is published where *)

(** C1 (what the code does at the root): with an empty path and a root
    that is an array or a primitive other than [null], the modal's save
    coerces the first field into the local [nodeTarget] only; the root it
    serialises is the old one, so the stores receive the old document
    re-serialized, not the coerced text. *)
Theorem root_scalar_edit_keeps_root
        (JSON_parse : string -> option Json) (beyond : Runtime (props string))
        (w : World) (nd : NodeData)
        (fields : props string) (root : Json) :
  NodeModal.path_of nd = [] ->
  parse_current JSON_parse (json w) = Ok root ->
  NodeModal.typeof_object_not_array root = false ->
  NodeModal.update root [] fields = Ok root /\
  NodeModal.handleSave JSON_parse beyond w (Some nd) fields
  = published_both (stringify root) w.
Proof.
  intros Hpath Hparse Hty.
  assert (Hu : NodeModal.update root [] fields = Ok root).
  { unfold NodeModal.update. now rewrite Hty. }
  split; [exact Hu|].
  apply NodeModal_handleSave_ok with (root := root); [exact Hparse|].
  now rewrite Hpath.
Qed.

Lemma root_scalar_edit_keeps_root_witness :
  NodeModal.path_of {| text := [row_of (PNum (number_of_N 5))]; path := Some [] |} = [] /\
  parse_current (reads doc_five) (json (editing "5")) = Ok doc_five /\
  NodeModal.typeof_object_not_array doc_five = false /\
  NodeModal.extractEditableFields [row_of (PNum (number_of_N 5))] = [] /\
  NodeModal.handleSave (reads doc_five) raises (editing "5")
    (Some {| text := [row_of (PNum (number_of_N 5))]; path := Some [] |}) []
  = published_both "5" (editing "5") /\
  stringify (JPrim (parseDraftValue (NodeModal.firstFieldValue []))) <> "5".
Proof.
  refine (conj eq_refl (conj eq_refl (conj eq_refl (conj eq_refl (conj _ _))))).
  - exact (proj2 (root_scalar_edit_keeps_root (reads doc_five) raises (editing "5")
                    {| text := [row_of (PNum (number_of_N 5))]; path := Some [] |}
                    [] (root := doc_five) eq_refl eq_refl eq_refl)).
  - vm_compute. discriminate.
Defined.

(** C3 (what the code does in the inline editor): a save that goes through
    sets the JSON store to the new text and never writes the raw content
    buffer, which keeps the text it had. *)
Theorem inline_save_skips_contents
        (JSON_parse : string -> option Json) (beyond : Runtime string)
        (w : World) (value : option Prim)
        (path : list Seg) (draft : string) (parsed parsed' : Json) :
  TextNode.shown value <> draft ->
  path <> [] ->
  parse_current JSON_parse (json w) = Ok parsed ->
  TextNode.update parsed path draft = Ok parsed' ->
  json (TextNode.handleSave JSON_parse beyond w value (Some path) draft) = stringify parsed' /\
  contents (TextNode.handleSave JSON_parse beyond w value (Some path) draft) = contents w.
Proof.
  intros Hd Hne Hp Hu.
  rewrite (TextNode_handleSave_ok JSON_parse beyond w value Hd Hne Hp Hu).
  split; reflexivity.
Qed.

Lemma inline_save_skips_contents_witness :
  TextNode.shown (Some (PBool true)) <> "false" /\
  [Key "flag"] <> [] /\
  parse_current (reads doc_flag) (json (editing (stringify doc_flag))) = Ok doc_flag /\
  TextNode.update doc_flag [Key "flag"] "false" = Ok (JObj [("flag", JPrim (PBool false))]) /\
  json (TextNode.handleSave (reads doc_flag) raises (editing (stringify doc_flag))
          (Some (PBool true)) (Some [Key "flag"]) "false")
  = stringify (JObj [("flag", JPrim (PBool false))]) /\
  contents (TextNode.handleSave (reads doc_flag) raises (editing (stringify doc_flag))
              (Some (PBool true)) (Some [Key "flag"]) "false")
  = stringify doc_flag /\
  stringify (JObj [("flag", JPrim (PBool false))]) <> stringify doc_flag.
Proof.
  assert (H1 : TextNode.shown (Some (PBool true)) <> "false") by discriminate.
  assert (H2 : [Key "flag"] <> []) by discriminate.
  pose proof (inline_save_skips_contents (reads doc_flag) raises
                (editing (stringify doc_flag)) (Some (PBool true))
                (path := [Key "flag"]) (draft := "false")
                (parsed := doc_flag) (parsed' := JObj [("flag", JPrim (PBool false))])
                H1 H2 eq_refl eq_refl) as [Hj Hc].
  refine (conj H1 (conj H2 (conj eq_refl (conj eq_refl (conj Hj (conj Hc _)))))).
  vm_compute. discriminate.
Defined.

(* ================================================================== *)
(** * Invalid paths *)





(* ================================================================== *)
(** * An empty store *)

Lemma own_set_empty (A : Type) (k : string) (v : A) : own_set [] k v = [(k, v)].
Proof.
  unfold own_set, own_insert. simpl. destruct (array_index k); reflexivity.
Qed.

(** On an object the runtime provides [__proto__]. *)
Lemma builtin_name_proto (k : string) :
  builtin_name KObject k = false -> String.eqb k proto = false.
Proof.
  intros H. destruct (String.eqb_spec k proto) as [->|]; [discriminate|reflexivity].
Qed.

(** C10: when the JSON store holds the empty string, [JSON.parse] is not
    called and the root is a fresh empty object, on which the save runs.
    At the root the modal assigns the fields, and the document it publishes
    has them as its members and no other.  With one segment either editor
    creates that member and publishes.  With more segments the first one
    reads undefined on the empty object and either editor leaves through
    its invalid-path guard.  The segments read on the empty object are
    those under which the runtime provides nothing to an object
    ([{}.constructor] is not undefined); the inline editor, which only
    writes the last one, creates any member but [__proto__]. *)
Theorem empty_store_is_empty_object
        (JSON_parse : string -> option Json) (w : World) :
  json w = "" ->
  parse_current JSON_parse (json w) = Ok (JObj []) /\
  (forall (beyond : Runtime (props string)) nd fields,
      NodeModal.path_of nd = [] ->
      NoDup (map fst fields) ->
      exists m',
        NodeModal.handleSave JSON_parse beyond w (Some nd) fields
        = published_both (stringify (JObj m')) w /\
        (forall k raw, In (k, raw) fields -> k <> "__proto__" ->
                       own_get m' k = Some (JPrim (parseDraftValue raw))) /\
        (forall k, ~ In k (map fst fields) -> own_get m' k = None) /\
        own_get m' "__proto__" = None) /\
  (forall (beyond : Runtime (props string)) nd fields l,
      NodeModal.path_of nd = [l] ->
      builtin_name KObject (seg_key l) = false ->
      NodeModal.handleSave JSON_parse beyond w (Some nd) fields
      = published_both
          (stringify (JObj [(seg_key l,
                             JPrim (parseDraftValue (NodeModal.firstFieldValue fields)))]))
          w) /\
  (forall (beyond : Runtime string) value draft l,
      TextNode.shown value <> draft ->
      seg_key l <> "__proto__" ->
      TextNode.handleSave JSON_parse beyond w value (Some [l]) draft
      = published_json
          (stringify (JObj [(seg_key l, JPrim (TextNode.parseDraftValue draft))])) w) /\
  (forall (beyond : Runtime (props string)) nd fields s s' rest,
      NodeModal.path_of nd = s :: s' :: rest ->
      builtin_name KObject (seg_key s) = false ->
      NodeModal.handleSave JSON_parse beyond w (Some nd) fields
      = abandoned ["Invalid path while updating node"] w) /\
  (forall (beyond : Runtime string) value draft s s' rest,
      TextNode.shown value <> draft ->
      builtin_name KObject (seg_key s) = false ->
      TextNode.handleSave JSON_parse beyond w value (Some (s :: s' :: rest)) draft
      = {| json := json w; contents := contents w; isEditing := false;
           console := console w |}).
Proof.
  intros Hempty.
  assert (Hparse : parse_current JSON_parse (json w) = Ok (JObj [])).
  { unfold parse_current. now rewrite Hempty. }
  split; [exact Hparse|]. split; [|split; [|split; [|split]]].
  - intros beyond nd fields Hpath Hnd.
    destruct (assign_fields_object fields []) as (m' & Ha & Hother & Hin & Hproto).
    exists m'. repeat split.
    + unfold NodeModal.handleSave. rewrite Hparse, Hpath. simpl.
      rewrite Ha. reflexivity.
    + intros k raw Hk Hne. apply (Hin Hnd k raw Hk). now left.
    + intros k Hk. now rewrite Hother.
    + now apply Hproto.
  - intros beyond nd fields l Hpath Hl.
    assert (Hslot : holds_slot (JObj []) l = true).
    { simpl. now rewrite (builtin_name_proto _ Hl). }
    unfold NodeModal.handleSave. rewrite Hparse, Hpath. cbn [bind].
    change (NodeModal.update (JObj []) [l] fields)
      with (NodeModal.final_step l fields (JObj [])).
    unfold NodeModal.final_step. cbn [js_get own_get]. unfold absent. rewrite Hl.
    rewrite (js_set_holds _ _ _ Hslot), own_set_empty. reflexivity.
  - intros beyond value draft l Hd Hl.
    assert (Hne : [l] <> []) by discriminate.
    assert (Hslot : holds_slot (JObj []) l = true).
    { change (seg_key l <> proto) in Hl. apply String.eqb_neq in Hl.
      simpl. now rewrite Hl. }
    apply String.eqb_neq in Hd.
    rewrite (TextNode_handleSave_past_guards JSON_parse beyond w value draft Hne Hd).
    rewrite Hparse. cbn [bind].
    change (TextNode.update (JObj []) [l] draft)
      with (js_set (JObj []) l (JPrim (TextNode.parseDraftValue draft))).
    rewrite (js_set_holds _ _ _ Hslot), own_set_empty. reflexivity.
  - intros beyond nd fields s s' rest Hpath Hs.
    unfold NodeModal.handleSave. rewrite Hparse, Hpath.
    unfold NodeModal.update.
    change (removelast (s :: s' :: rest)) with (s :: removelast (s' :: rest)).
    cbn [bind descend js_get own_get]. unfold absent. rewrite Hs. reflexivity.
  - intros beyond value draft s s' rest Hd Hs.
    assert (Hne : s :: s' :: rest <> []) by discriminate.
    apply String.eqb_neq in Hd.
    rewrite (TextNode_handleSave_past_guards JSON_parse beyond w value draft Hne Hd).
    rewrite Hparse. unfold TextNode.update.
    change (removelast (s :: s' :: rest)) with (s :: removelast (s' :: rest)).
    cbn [bind descend js_get own_get]. unfold absent. rewrite Hs. reflexivity.
Qed.

Lemma empty_store_is_empty_object_witness :
  json (editing "") = "" /\
  builtin_name KObject (seg_key (Key "a")) = false /\
  NodeModal.handleSave (fun _ => None) raises (editing "")
    (Some {| text := []; path := Some [Key "a"] |}) [("x", "1")]
  = published_both (stringify (JObj [("a", num 1)])) (editing "") /\
  TextNode.handleSave (fun _ => None) raises (editing "") None (Some [Key "a"]) "1"
  = published_json (stringify (JObj [("a", num 1)])) (editing "") /\
  NodeModal.handleSave (fun _ => None) raises (editing "")
    (Some {| text := []; path := Some [Key "a"; Key "b"] |}) [("x", "1")]
  = abandoned ["Invalid path while updating node"] (editing "").
Proof.
  destruct (empty_store_is_empty_object (fun _ => None) (editing "") eq_refl)
    as (_ & _ & Hmodal & Hinline & Hguard & _).
  refine (conj eq_refl (conj eq_refl (conj _ (conj _ _)))).
  - exact (Hmodal raises {| text := []; path := Some [Key "a"] |} [("x", "1")]
                  (Key "a") eq_refl eq_refl).
  - assert (H1 : TextNode.shown None <> "1") by discriminate.
    assert (H2 : seg_key (Key "a") <> proto) by discriminate.
    exact (Hinline raises None "1" (Key "a") H1 H2).
  - exact (Hguard raises {| text := []; path := Some [Key "a"; Key "b"] |}
                  [("x", "1")] (Key "a") (Key "b") [] eq_refl eq_refl).
Defined.

(* ================================================================== *)
(** * Field-map and scalar commits *)

Lemma js_get_found_container (parent : Json) (s : Seg) (child : Json) :
  js_get parent s = Found child ->
  (forall c, child <> JPrim (PStr c)) ->
  is_container parent = true.
Proof.
  intros Hg Hc. destruct parent as [p| |]; try reflexivity.
  apply js_get_prim_char in Hg. destruct Hg as [c ->]. now destruct (Hc c).
Qed.

Lemma holds_slot_container (parent : Json) (l : Seg) :
  holds_slot parent l = true -> is_container parent = true.
Proof. destruct parent; auto. Qed.

(** The scalar branch of the modal: in a container that holds slot [l],
    when what the slot holds is not an object, nor what the runtime
    provides, the slot becomes the coerced first field value. *)
Lemma modal_scalar_commit (root : Json) (inter : list Seg) (l : Seg)
      (parent : Json) (fields : props string) :
  get_path root inter = Found parent ->
  holds_slot parent l = true ->
  (forall m, js_get parent l <> Found (JObj m)) ->
  js_get parent l <> Builtin ->
  exists root',
    NodeModal.update root (inter ++ [l]) fields = Ok root' /\
    get_path root' (inter ++ [l])
    = Found (JPrim (parseDraftValue (NodeModal.firstFieldValue fields))).
Proof.
  intros Hp Hslot Hnot Hdoc.
  destruct (js_set_get parent l
              (JPrim (parseDraftValue (NodeModal.firstFieldValue fields))) Hslot)
    as (parent' & Hs & Hg).
  assert (Hf : NodeModal.final_step l fields parent = Ok parent').
  { unfold NodeModal.final_step.
    destruct (js_get parent l) as [[q|a|m]| | |] eqn:E; auto.
    - now destruct (Hnot m).
    - apply js_get_type_error in E. subst parent. discriminate.
    - congruence. }
  destruct (@descend_found inter _ root parent _ Hp
              (holds_slot_container _ _ Hslot) Hf) as (root' & Hd & Hg').
  exists root'. split.
  - now rewrite NodeModal_update_snoc.
  - now rewrite get_path_last, Hg'.
Qed.

(** The write of the inline editor: in a container that holds slot [l],
    the slot becomes the coerced draft. *)
Lemma inline_scalar_commit (root : Json) (inter : list Seg) (l : Seg)
      (parent : Json) (draft : string) :
  get_path root inter = Found parent ->
  holds_slot parent l = true ->
  exists root',
    TextNode.update root (inter ++ [l]) draft = Ok root' /\
    get_path root' (inter ++ [l]) = Found (JPrim (TextNode.parseDraftValue draft)).
Proof.
  intros Hp Hslot.
  destruct (js_set_get parent l (JPrim (TextNode.parseDraftValue draft)) Hslot)
    as (parent' & Hs & Hg).
  destruct (@descend_found inter (TextNode.final_step l draft) root parent _ Hp
              (holds_slot_container _ _ Hslot) Hs) as (root' & Hd & Hg').
  exists root'. split.
  - now rewrite TextNode_update_snoc.
  - now rewrite get_path_last, Hg'.
Qed.

(** C6: when the path leads to an object, the modal's commit sets the
    member under every key of the field map to the coerced text of that
    field, creating the members that were not there, and the members under
    other keys keep their values; the result is what the save publishes.
    The keys of a field map are distinct.  One name is apart: a field
    [__proto__], which [extractEditableFields] never makes, sets the
    member of that name when the object has one, and creates none when it
    has not, the write being taken by the setter of [Object.prototype]. *)
Theorem field_map_commit (root : Json) (path : list Seg) (m : props Json)
        (fields : props string) :
  get_path root path = Found (JObj m) ->
  NoDup (map fst fields) ->
  exists root' m',
    NodeModal.update root path fields = Ok root' /\
    get_path root' path = Found (JObj m') /\
    (forall k raw, In (k, raw) fields ->
                   k <> "__proto__" \/ own_get m "__proto__" <> None ->
                   own_get m' k = Some (JPrim (parseDraftValue raw))) /\
    (forall k, ~ In k (map fst fields) -> own_get m' k = own_get m k) /\
    (own_get m "__proto__" = None -> own_get m' "__proto__" = None) /\
    (forall JSON_parse beyond w nd,
        parse_current JSON_parse (json w) = Ok root ->
        NodeModal.path_of nd = path ->
        NodeModal.handleSave JSON_parse beyond w (Some nd) fields
        = published_both (stringify root') w).
Proof.
  intros Hget Hnd.
  destruct (assign_fields_object fields m) as (m' & Ha & Hother & Hin & Hproto).
  assert (Hupd : exists root',
             NodeModal.update root path fields = Ok root' /\
             get_path root' path = Found (JObj m')).
  { destruct path as [|s0 p0] eqn:Epath.
    - simpl in Hget. injection Hget as ->. exists (JObj m'). split; [exact Ha | reflexivity].
    - assert (Hne : path <> []) by (rewrite Epath; discriminate).
      rewrite <- Epath in *. clear Epath.
      destruct (path_snoc Hne) as (inter & l & ->).
      rewrite get_path_last in Hget.
      destruct (get_path root inter) as [parent| | |] eqn:Hp; try discriminate.
      assert (Hc : is_container parent = true).
      { eapply js_get_found_container; eauto. discriminate. }
      assert (Hf : NodeModal.final_step l fields parent
                   = Ok (js_replace parent l (JObj m'))).
      { unfold NodeModal.final_step. rewrite Hget, Ha. reflexivity. }
      destruct (@descend_found inter _ root parent _ Hp Hc Hf) as (root' & Hd & Hg).
      exists root'. split.
      + now rewrite NodeModal_update_snoc.
      + rewrite get_path_last, Hg.
        apply js_replace_get. eapply js_get_found_holds; eauto. }
  destruct Hupd as (root' & Hu & Hg).
  exists root', m'. repeat split; auto.
  intros JSON_parse beyond w nd Hparse Hpath.
  apply NodeModal_handleSave_ok with (root := root); [exact Hparse|].
  now rewrite Hpath.
Qed.

Lemma field_map_commit_witness :
  get_path doc_user [Key "user"] = Found (JObj [("age", num 30)]) /\
  NoDup (map fst [("age", "31")]) /\
  NodeModal.update doc_user [Key "user"] [("age", "31")] = Ok doc_user_31 /\
  exists m', get_path doc_user_31 [Key "user"] = Found (JObj m') /\
             own_get m' "age" = Some (num 31).
Proof.
  assert (Hnd : NoDup (map fst [("age", "31")])).
  { repeat constructor. intros []. }
  destruct (@field_map_commit doc_user [Key "user"] [("age", num 30)]
              [("age", "31")] eq_refl Hnd)
    as (root' & m' & Hu & Hg & Hin & _).
  assert (E : root' = doc_user_31).
  { vm_compute in Hu. injection Hu as <-. reflexivity. }
  subst root'.
  refine (conj eq_refl (conj Hnd (conj eq_refl _))).
  exists m'. split; [exact Hg|].
  apply (Hin "age" "31"); [now left | left; discriminate].
Defined.

(** C7, as stated, fails: the object under [user] has the string member
    [zip] = "01234"; its field shows [01234], and saving the fields as they
    are reads that text back as the number 1234, so the document
    re-serializes to another text. *)
Lemma noop_commit_turns_numeric_string :
  get_path doc_zip [Key "user"] = Found (JObj [("zip", JPrim (PStr "01234"))]) /\
  NodeModal.extractEditableFields (rows_of_object [("zip", JPrim (PStr "01234"))])
  = [("zip", "01234")] /\
  NodeModal.update doc_zip [Key "user"]
    (NodeModal.extractEditableFields (rows_of_object [("zip", JPrim (PStr "01234"))]))
  = Ok doc_zip_number /\
  stringify doc_zip_number <> stringify doc_zip.
Proof.
  repeat split; try reflexivity. vm_compute. discriminate.
Qed.

(** C7, amended: for every document and every path leading to an object
    whose named primitive members each survive the round trip through text
    ([parseDraftValue] of the text shown for the value is the value again,
    as for booleans, for numbers and for strings that do not read as
    [null], a boolean or a number; not for [null], nor for strings that
    do), committing the fields just as they were projected leaves the
    document as it was, and the save publishes the canonical text of that
    same document.  The keys of an object are distinct. *)
Theorem noop_commit_round_trip (root : Json) (path : list Seg) (m : props Json) :
  get_path root path = Found (JObj m) ->
  NoDup (map fst m) ->
  (forall k p, In (k, JPrim p) m -> k <> "" -> survives_edit p) ->
  NodeModal.update root path (NodeModal.extractEditableFields (rows_of_object m))
  = Ok root /\
  (forall JSON_parse beyond w nd,
      parse_current JSON_parse (json w) = Ok root ->
      NodeModal.path_of nd = path ->
      NodeModal.handleSave JSON_parse beyond w (Some nd)
        (NodeModal.extractEditableFields (rows_of_object m))
      = published_both (stringify root) w).
Proof.
  intros Hget Hnd Hsurv.
  set (fields := NodeModal.extractEditableFields (rows_of_object m)).
  assert (Ha : NodeModal.assign_fields (JObj m) fields = Ok (JObj m)).
  { apply assign_fields_same. intros k raw Hin.
    apply fields_of_object in Hin. destruct Hin as (p & Hin & Hne & ->).
    rewrite (Hsurv k p Hin Hne). now apply In_own_get. }
  assert (Hu : NodeModal.update root path fields = Ok root).
  { destruct path as [|s0 p0] eqn:Epath.
    - simpl in Hget. injection Hget as ->. exact Ha.
    - assert (Hne : path <> []) by (rewrite Epath; discriminate).
      rewrite <- Epath in *. clear Epath.
      destruct (path_snoc Hne) as (inter & l & ->).
      rewrite get_path_last in Hget.
      destruct (get_path root inter) as [parent| | |] eqn:Hp; try discriminate.
      rewrite NodeModal_update_snoc.
      apply descend_unchanged with (parent := parent); [exact Hp|].
      unfold NodeModal.final_step. rewrite Hget, Ha. simpl.
      now rewrite js_replace_same_value. }
  split; [exact Hu|].
  intros JSON_parse beyond w nd Hparse Hpath.
  apply NodeModal_handleSave_ok with (root := root); [exact Hparse|].
  now rewrite Hpath.
Qed.

Lemma noop_commit_round_trip_witness :
  get_path doc_card [Key "card"]
  = Found (JObj [("name", JPrim (PStr "Ann")); ("age", num 30);
                 ("ok", JPrim (PBool true)); ("tags", JArr [num 1])]) /\
  NodeModal.extractEditableFields
    (rows_of_object [("name", JPrim (PStr "Ann")); ("age", num 30);
                     ("ok", JPrim (PBool true)); ("tags", JArr [num 1])])
  = [("name", "Ann"); ("age", "30"); ("ok", "true")] /\
  NodeModal.update doc_card [Key "card"]
    [("name", "Ann"); ("age", "30"); ("ok", "true")] = Ok doc_card.
Proof.
  refine (conj eq_refl (conj eq_refl _)).
  refine (proj1 (@noop_commit_round_trip doc_card [Key "card"]
                   [("name", JPrim (PStr "Ann")); ("age", num 30);
                    ("ok", JPrim (PBool true)); ("tags", JArr [num 1])]
                   eq_refl _ _)).
  - repeat constructor; simpl; intuition discriminate.
  - intros k p Hin _. simpl in Hin.
    destruct Hin as [H|[H|[H|[H|[]]]]]; try discriminate;
      injection H as _ <-; reflexivity.
Defined.

(** C8, as stated, fails: under [a] the document holds [null] (or the
    number 5), a defined value with nothing under [b]; the write to its
    [b] raises, the catch block reports it, and nothing is created or
    published. *)
Lemma scalar_commit_under_primitive_fails :
  get_path doc_null [Key "a"] = Found (JPrim PNull) /\
  TextNode.handleSave (reads doc_null) raises (editing (stringify doc_null))
    None (Some [Key "a"; Key "b"]) "1"
  = abandoned ["Failed to update JSON from node editor"] (editing (stringify doc_null)) /\
  NodeModal.handleSave (reads doc_null) raises (editing (stringify doc_null))
    (Some {| text := []; path := Some [Key "a"; Key "b"] |}) [("b", "1")]
  = abandoned ["Failed to update JSON from NodeModal"] (editing (stringify doc_null)) /\
  get_path doc_a5 [Key "a"] = Found (num 5) /\
  js_get (num 5) (Key "b") = Undefined /\
  TextNode.handleSave (reads doc_a5) raises (editing (stringify doc_a5))
    None (Some [Key "a"; Key "b"]) "1"
  = abandoned ["Failed to update JSON from node editor"] (editing (stringify doc_a5)) /\
  NodeModal.handleSave (reads doc_a5) raises (editing (stringify doc_a5))
    (Some {| text := []; path := Some [Key "a"; Key "b"] |}) [("b", "1")]
  = abandoned ["Failed to update JSON from NodeModal"] (editing (stringify doc_a5)).
Proof.
  repeat split; reflexivity.
Qed.

(** C8, amended: for every path whose segments before the last lead to an
    object, or to an array when the last segment is an index, and whose
    last segment reads undefined there (it names no slot of the container
    and nothing that the runtime provides, such as [__proto__]), a scalar
    commit does not fail: the inline editor (when the draft differs from
    the value shown) and the modal both create the slot, holding the
    coerced value, and publish the new document. *)
Theorem scalar_commit_creates_final_slot
        (JSON_parse : string -> option Json) (w : World) (root : Json)
        (inter : list Seg) (l : Seg) (parent : Json) :
  parse_current JSON_parse (json w) = Ok root ->
  get_path root inter = Found parent ->
  holds_slot parent l = true ->
  js_get parent l = Undefined ->
  (forall (beyond : Runtime string) v draft,
      TextNode.shown v <> draft ->
      exists root',
        TextNode.handleSave JSON_parse beyond w v (Some (inter ++ [l])%list) draft
        = published_json (stringify root') w /\
        get_path root' (inter ++ [l]) = Found (JPrim (TextNode.parseDraftValue draft))) /\
  (forall (beyond : Runtime (props string)) nd fields,
      NodeModal.path_of nd = (inter ++ [l])%list ->
      exists root',
        NodeModal.handleSave JSON_parse beyond w (Some nd) fields
        = published_both (stringify root') w /\
        get_path root' (inter ++ [l])
        = Found (JPrim (parseDraftValue (NodeModal.firstFieldValue fields)))).
Proof.
  intros Hparse Hp Hslot Habsent.
  assert (Hne : (inter ++ [l])%list <> []) by (destruct inter; discriminate).
  split.
  - intros beyond v draft Hd.
    destruct (@inline_scalar_commit root inter l parent draft Hp Hslot) as (root' & Hu & Hg).
    exists root'. split; [|exact Hg].
    now apply TextNode_handleSave_ok with (parsed := root).
  - intros beyond nd fields Hpath.
    destruct (@modal_scalar_commit root inter l parent fields Hp Hslot) as (root' & Hu & Hg).
    { intros m. rewrite Habsent. discriminate. }
    { rewrite Habsent. discriminate. }
    exists root'. split; [|exact Hg].
    apply NodeModal_handleSave_ok with (root := root); [exact Hparse|].
    now rewrite Hpath.
Qed.

Lemma scalar_commit_creates_final_slot_witness :
  parse_current (reads doc_user) (json (editing (stringify doc_user))) = Ok doc_user /\
  get_path doc_user [Key "user"] = Found (JObj [("age", num 30)]) /\
  holds_slot (JObj [("age", num 30)]) (Key "name") = true /\
  js_get (JObj [("age", num 30)]) (Key "name") = Undefined /\
  TextNode.shown None <> "Ann" /\
  exists root',
    TextNode.handleSave (reads doc_user) raises (editing (stringify doc_user)) None
      (Some [Key "user"; Key "name"]) "Ann"
    = published_json (stringify root') (editing (stringify doc_user)) /\
    get_path root' [Key "user"; Key "name"] = Found (JPrim (PStr "Ann")).
Proof.
  assert (Hd : TextNode.shown None <> "Ann") by discriminate.
  destruct (@scalar_commit_creates_final_slot (reads doc_user)
              (editing (stringify doc_user)) doc_user [Key "user"] (Key "name")
              (JObj [("age", num 30)]) eq_refl eq_refl eq_refl eq_refl)
    as [Hinline _].
  exact (conj eq_refl (conj eq_refl (conj eq_refl (conj eq_refl
          (conj Hd (Hinline raises None "Ann" Hd)))))).
Defined.

(** C9: when a non-empty path leads to [null], the modal's commit takes the
    scalar branch: the slot as a whole becomes the coerced first field
    value (the coerced empty string when there is no field), a primitive,
    so no field key is written under it; the save publishes the result. *)
Theorem null_target_is_replaced (root : Json) (path : list Seg) (fields : props string) :
  path <> [] ->
  get_path root path = Found (JPrim PNull) ->
  exists root',
    NodeModal.update root path fields = Ok root' /\
    get_path root' path
    = Found (JPrim (parseDraftValue (NodeModal.firstFieldValue fields))) /\
    (forall JSON_parse beyond w nd,
        parse_current JSON_parse (json w) = Ok root ->
        NodeModal.path_of nd = path ->
        NodeModal.handleSave JSON_parse beyond w (Some nd) fields
        = published_both (stringify root') w).
Proof.
  intros Hne Hget.
  destruct (path_snoc Hne) as (inter & l & ->).
  rewrite get_path_last in Hget.
  destruct (get_path root inter) as [parent| | |] eqn:Hp; try discriminate.
  assert (Hc : is_container parent = true).
  { eapply js_get_found_container; eauto. discriminate. }
  assert (Hslot : holds_slot parent l = true).
  { eapply js_get_found_holds; eauto. }
  destruct (@modal_scalar_commit root inter l parent fields Hp Hslot) as (root' & Hu & Hg).
  { intros m. rewrite Hget. discriminate. }
  { rewrite Hget. discriminate. }
  exists root'. repeat split; auto.
  intros JSON_parse beyond w nd Hparse Hpath.
  apply NodeModal_handleSave_ok with (root := root); [exact Hparse|].
  now rewrite Hpath.
Qed.

Lemma null_target_is_replaced_witness :
  [Key "a"] <> [] /\
  get_path doc_null [Key "a"] = Found (JPrim PNull) /\
  NodeModal.update doc_null [Key "a"] [("x", "7"); ("y", "8")] = Ok (JObj [("a", num 7)]) /\
  get_path (JObj [("a", num 7)]) [Key "a"] = Found (num 7).
Proof.
  assert (Hne : [Key "a"] <> []) by discriminate.
  destruct (@null_target_is_replaced doc_null [Key "a"] [("x", "7"); ("y", "8")]
              Hne eq_refl) as (root' & Hu & Hg & _).
  assert (E : root' = JObj [("a", num 7)]).
  { vm_compute in Hu. injection Hu as <-. reflexivity. }
  subst root'.
  exact (conj Hne (conj eq_refl (conj Hu Hg))).
Defined.

(* ================================================================== *)
(** * The displayed path *)

Lemma append_assoc (a b c : string) : (a ++ b) ++ c = a ++ b ++ c.
Proof. induction a as [|x a IH]; simpl; [reflexivity | now rewrite IH]. Qed.

Lemma join_snoc (sep : string) (l : list string) (x y : string) :
  join sep ((x :: l) ++ [y])%list = join sep (x :: l) ++ sep ++ y.
Proof.
  revert x. induction l as [|z l IH]; intros x.
  - reflexivity.
  - change (join sep ((x :: z :: l) ++ [y])%list) with (x ++ sep ++ join sep ((z :: l) ++ [y])%list).
    rewrite IH.
    change (join sep (x :: z :: l)) with (x ++ sep ++ join sep (z :: l)).
    now rewrite !append_assoc.
Qed.

Lemma jsonPathToString_snoc (p : list Seg) (s : Seg) :
  jsonPathToString (Some (p ++ [s])%list)
  = jsonPathToString (Some p) ++ "[" ++ path_segment s ++ "]".
Proof.
  destruct p as [|s0 p]; [reflexivity|].
  unfold jsonPathToString.
  change ((s0 :: p) ++ [s])%list with (s0 :: (p ++ [s]))%list.
  change (map path_segment (s0 :: (p ++ [s]))%list)
    with (path_segment s0 :: map path_segment (p ++ [s])%list).
  rewrite map_app.
  change (path_segment s0 :: (map path_segment p ++ map path_segment [s])%list)
    with ((path_segment s0 :: map path_segment p) ++ [path_segment s])%list.
  rewrite join_snoc.
  change (map path_segment (s0 :: p)) with (path_segment s0 :: map path_segment p).
  rewrite !append_assoc. reflexivity.
Qed.

(** X1: The text shown for the path of a node: [$] when there is no path and
    for the empty path; for a longer path, the text of the path without its
    last segment followed by the last segment between square brackets, a
    key between double quotes, as it is, and a number (one that a path can
    hold exactly, below 2^53) as [String] prints it.  So the path [a], 0,
    [b] is shown as [$["a"][0]["b"]]. *)
Theorem jsonPathToString_child (p : list Seg) :
  jsonPathToString None = "$" /\
  jsonPathToString (Some []) = "$" /\
  (forall k, jsonPathToString (Some (p ++ [Key k])%list)
             = jsonPathToString (Some p) ++ "[" ++ dquote ++ k ++ dquote ++ "]") /\
  (forall i, (i < 2 ^ 53)%N ->
             jsonPathToString (Some (p ++ [Idx i])%list)
             = jsonPathToString (Some p) ++ "[" ++ NumberToString (number_of_N i) ++ "]") /\
  jsonPathToString (Some [Key "a"; Idx 0; Key "b"])
  = "$[" ++ dquote ++ "a" ++ dquote ++ "][0][" ++ dquote ++ "b" ++ dquote ++ "]".
Proof.
  repeat split; try reflexivity.
  - intros k. rewrite jsonPathToString_snoc. cbn [path_segment].
    now rewrite !append_assoc.
  - intros i _. apply jsonPathToString_snoc.
Qed.

Lemma jsonPathToString_child_witness :
  (12 < 2 ^ 53)%N /\
  jsonPathToString (Some [Key "list"; Idx 12])
  = "$[" ++ dquote ++ "list" ++ dquote ++ "][12]".
Proof.
  assert (H : (12 < 2 ^ 53)%N) by reflexivity.
  split; [exact H|].
  destruct (jsonPathToString_child [Key "list"]) as (_ & _ & _ & Hidx & _).
  change (jsonPathToString (Some ([Key "list"] ++ [Idx 12])%list)
          = "$[" ++ dquote ++ "list" ++ dquote ++ "][12]").
  rewrite (Hidx 12%N H). reflexivity.
Defined.

(* ================================================================== *)
(** * Keys of a property list *)

Section OwnKeys.
Variable A : Type.
Implicit Types (m : props A) (k : string) (v : A).

Lemma own_get_none_keys m k : own_get m k = None <-> ~ In k (map fst m).
Proof.
  induction m as [|[k' v'] m IH]; simpl; [tauto|].
  destruct (String.eqb_spec k' k) as [E|E].
  - split; [discriminate | intros H; exfalso; apply H; now left].
  - rewrite IH. tauto.
Qed.

Lemma own_get_app m1 m2 k :
  own_get (m1 ++ m2)%list k
  = match own_get m1 k with
    | Some x => Some x
    | None => own_get m2 k
    end.
Proof.
  induction m1 as [|[k' v'] m1 IH]; simpl; [reflexivity|].
  destruct (String.eqb k' k); auto.
Qed.

Lemma own_replace_keys m k v : map fst (own_replace m k v) = map fst m.
Proof.
  induction m as [|[k' v'] m IH]; simpl; [reflexivity|].
  destruct (String.eqb k' k); simpl; [reflexivity | now rewrite IH].
Qed.

Lemma own_insert_index_keys m (i : N) k v k0 :
  In k0 (map fst (own_insert_index m i k v)) <-> k0 = k \/ In k0 (map fst m).
Proof.
  induction m as [|[k' v'] m IH]; simpl.
  - intuition.
  - destruct (array_index k') as [j|]; [destruct (j <? i)%N|]; simpl;
      rewrite ?IH; intuition.
Qed.

Lemma own_insert_index_NoDup m (i : N) k v :
  ~ In k (map fst m) -> NoDup (map fst m) ->
  NoDup (map fst (own_insert_index m i k v)).
Proof.
  induction m as [|[k' v'] m IH]; simpl; intros Hk Hnd.
  - constructor; [tauto | constructor].
  - inversion Hnd as [|? ? Hnot Hnd']; subst.
    assert (Hins : NoDup (k :: k' :: map fst m)).
    { constructor; [simpl; tauto | exact Hnd]. }
    destruct (array_index k') as [j|]; [destruct (j <? i)%N|]; simpl; auto.
    constructor.
    + rewrite own_insert_index_keys. intros [->|H]; tauto.
    + apply IH; tauto.
Qed.

(** A write keeps the keys distinct. *)
Lemma own_set_NoDup m k v : NoDup (map fst m) -> NoDup (map fst (own_set m k v)).
Proof.
  intros Hnd. unfold own_set, own_insert.
  destruct (own_get m k) eqn:E.
  - now rewrite own_replace_keys.
  - apply own_get_none_keys in E.
    destruct (array_index k).
    + now apply own_insert_index_NoDup.
    + rewrite map_app. simpl. apply NoDup_app; auto.
      * repeat constructor; tauto.
      * intros x Hx [<-|[]]. tauto.
Qed.

(** A write to a key that is there keeps the keys and their order. *)
Lemma own_set_keys_present m k v x :
  own_get m k = Some x -> map fst (own_set m k v) = map fst m.
Proof.
  intros H. unfold own_set. rewrite H. apply own_replace_keys.
Qed.

(** A new key that is not an array index goes to the end. *)
Lemma own_set_fresh m k v :
  own_get m k = None -> array_index k = None ->
  own_set m k v = (m ++ [(k, v)])%list.
Proof.
  intros H Hi. unfold own_set, own_insert. now rewrite H, Hi.
Qed.
End OwnKeys.

(* ================================================================== *)
(** * The editable fields of a node *)

Lemma add_field_cases (fields : props string) (row : NodeRow) :
  add_field fields row
  = if is_container_row row then fields
    else match truthy_key (key row) with
         | Some k => NodeModal.field_set fields k (field_text (value row))
         | None => fields
         end.
Proof.
  unfold add_field, editable_key, NodeModal.field_set.
  destruct (is_container_row row); [reflexivity|].
  destruct (truthy_key (key row)) as [k|]; [|reflexivity].
  now destruct (String.eqb k proto).
Qed.

Lemma extractEditableFields_fold (rows : list NodeRow) :
  NodeModal.extractEditableFields rows = fold_left add_field rows [].
Proof.
  unfold NodeModal.extractEditableFields. generalize (@nil (string * string)).
  induction rows as [|row rows IH]; intros acc; simpl; [reflexivity|].
  now rewrite IH, add_field_cases.
Qed.

Lemma editable_key_not_empty (row : NodeRow) (k : string) :
  editable_key row = Some k -> k <> "".
Proof.
  unfold editable_key. destruct (is_container_row row); [discriminate|].
  destruct (truthy_key (key row)) as [k0|] eqn:E; [|discriminate].
  destruct (String.eqb k0 proto); [discriminate|].
  intros [= <-]. now apply truthy_key_some in E.
Qed.

Lemma editable_key_not_proto (row : NodeRow) (k : string) :
  editable_key row = Some k -> k <> proto.
Proof.
  unfold editable_key. destruct (is_container_row row); [discriminate|].
  destruct (truthy_key (key row)) as [k0|]; [|discriminate].
  destruct (String.eqb_spec k0 proto); [discriminate|].
  now intros [= <-].
Qed.

Lemma In_keys_own_set (A : Type) (m : props A) (k : string) (v : A) (k0 : string) :
  In k0 (map fst (own_set m k v)) -> k0 = k \/ In k0 (map fst m).
Proof.
  intros H. apply in_map_iff in H. destruct H as ([k1 v1] & <- & Hin).
  apply In_own_set in Hin. destruct Hin as [[= -> ->]|Hin]; [now left|].
  right. now apply (in_map fst) in Hin.
Qed.

Lemma fold_add_field_invariant (rows : list NodeRow) :
  forall acc,
    NoDup (map fst acc) -> ~ In "" (map fst acc) ->
    NoDup (map fst (fold_left add_field rows acc)) /\
    ~ In "" (map fst (fold_left add_field rows acc)).
Proof.
  induction rows as [|row rows IH]; intros acc Hnd Hne; simpl; [auto|].
  apply IH; unfold add_field; destruct (editable_key row) as [k|] eqn:E; auto.
  - now apply own_set_NoDup.
  - intros H. apply In_keys_own_set in H. destruct H as [H|H]; [|tauto].
    apply editable_key_not_empty in E. congruence.
Qed.

(** X2: The field map of any row list has distinct keys, none of them empty. *)
Theorem extractEditableFields_distinct_keys (rows : list NodeRow) :
  NoDup (map fst (NodeModal.extractEditableFields rows)) /\
  ~ In "" (map fst (NodeModal.extractEditableFields rows)).
Proof.
  rewrite extractEditableFields_fold.
  apply fold_add_field_invariant; [constructor | intros []].
Qed.

Lemma fold_add_field_lookup (rows : list NodeRow) (k : string) :
  forall acc,
    own_get (fold_left add_field rows acc) k
    = match own_get (rev (editable_entries rows)) k with
      | Some t => Some t
      | None => own_get acc k
      end.
Proof.
  induction rows as [|row rows IH]; intros acc; [reflexivity|].
  cbn [fold_left]. rewrite IH.
  unfold editable_entries. cbn [flat_map]. fold (editable_entries rows).
  rewrite rev_app_distr, own_get_app.
  destruct (own_get (rev (editable_entries rows)) k); [reflexivity|].
  unfold add_field. destruct (editable_key row) as [k0|]; [|reflexivity].
  simpl. destruct (String.eqb_spec k0 k) as [->|E].
  - apply own_get_set_same.
  - apply own_get_set_other. congruence.
Qed.

Lemma extractEditableFields_lookup (rows : list NodeRow) (k : string) :
  own_get (NodeModal.extractEditableFields rows) k
  = own_get (rev (editable_entries rows)) k.
Proof.
  rewrite extractEditableFields_fold, fold_add_field_lookup.
  now destruct (own_get (rev (editable_entries rows)) k).
Qed.

Lemma editable_entries_no_proto (rows : list NodeRow) :
  ~ In proto (map fst (editable_entries rows)).
Proof.
  intros Hin. apply in_map_iff in Hin. destruct Hin as ([k0 t] & Hk & Hin).
  simpl in Hk. subst k0. unfold editable_entries in Hin.
  apply in_flat_map in Hin. destruct Hin as (row & _ & Hin).
  destruct (editable_key row) as [k1|] eqn:E; [|destruct Hin].
  destruct Hin as [[= -> _]|[]].
  now apply editable_key_not_proto in E.
Qed.

Lemma extractEditableFields_no_proto (rows : list NodeRow) :
  ~ In proto (map fst (NodeModal.extractEditableFields rows)).
Proof.
  intros Hin.
  pose proof (own_get_none_keys (NodeModal.extractEditableFields rows) proto) as H.
  rewrite extractEditableFields_lookup in H.
  apply H in Hin; [exact Hin|].
  apply own_get_none_keys. rewrite map_rev, <- in_rev.
  apply editable_entries_no_proto.
Qed.

(** X3: The field under a key shows the value of the last row with that
    key among the rows that give a field (the rows that are not containers
    and have a key, not empty and not [__proto__]); and there is no field
    [__proto__], whatever the rows. *)
Theorem extractEditableFields_last_row (rows : list NodeRow) (k : string) :
  own_get (NodeModal.extractEditableFields rows) k
  = own_get (rev (editable_entries rows)) k /\
  own_get (NodeModal.extractEditableFields rows) "__proto__" = None.
Proof.
  split; [apply extractEditableFields_lookup|].
  apply own_get_none_keys. apply extractEditableFields_no_proto.
Qed.

Lemma editable_entries_keys (rows : list NodeRow) (k : string) :
  In k (map fst (editable_entries rows)) <->
  exists row, In row rows /\ editable_key row = Some k.
Proof.
  unfold editable_entries. rewrite in_map_iff. split.
  - intros ([k0 t] & <- & H). apply in_flat_map in H.
    destruct H as (row & Hrow & H). exists row. split; [exact Hrow|].
    destruct (editable_key row); [|destruct H].
    destruct H as [[= -> _]|[]]. reflexivity.
  - intros (row & Hrow & E). exists (k, field_text (value row)). split; [reflexivity|].
    apply in_flat_map. exists row. split; [exact Hrow|]. rewrite E. now left.
Qed.

Lemma editable_key_spec (row : NodeRow) (k : string) :
  editable_key row = Some k <->
  is_container_row row = false /\ key row = Some k /\ k <> "" /\ k <> proto.
Proof.
  split.
  - intros E. pose proof (editable_key_not_proto _ E) as Hp.
    unfold editable_key in E.
    destruct (is_container_row row); [discriminate|].
    destruct (truthy_key (key row)) as [k0|] eqn:Ek; [|discriminate].
    destruct (String.eqb k0 proto); [discriminate|].
    injection E as <-. apply truthy_key_some in Ek. tauto.
  - intros (Hc & Hk & Hne & Hp). unfold editable_key. rewrite Hc, Hk. simpl.
    apply String.eqb_neq in Hne, Hp. now rewrite Hne, Hp.
Qed.

(** X4: The keys of the field map are exactly the keys of the rows that are
    not containers and have a key that is neither empty nor [__proto__]:
    nested containers, rows without a key and a row named [__proto__]
    never give a field. *)
Theorem extractEditableFields_keys (rows : list NodeRow) (k : string) :
  In k (map fst (NodeModal.extractEditableFields rows)) <->
  exists row, In row rows /\ is_container_row row = false /\
              key row = Some k /\ k <> "" /\ k <> "__proto__".
Proof.
  assert (H : In k (map fst (NodeModal.extractEditableFields rows)) <->
              In k (map fst (editable_entries rows))).
  { pose proof (own_get_none_keys (NodeModal.extractEditableFields rows) k) as H1.
    pose proof (own_get_none_keys (rev (editable_entries rows)) k) as H2.
    assert (Hl : own_get (NodeModal.extractEditableFields rows) k
                 = own_get (rev (editable_entries rows)) k).
    { rewrite extractEditableFields_fold, fold_add_field_lookup.
      now destruct (own_get (rev (editable_entries rows)) k). }
    rewrite Hl in H1.
    rewrite map_rev, <- in_rev in H2.
    destruct (in_dec string_dec k (map fst (NodeModal.extractEditableFields rows)));
      destruct (in_dec string_dec k (map fst (editable_entries rows))); tauto. }
  rewrite H, editable_entries_keys. split.
  - intros (row & Hrow & E). exists row. apply editable_key_spec in E. tauto.
  - intros (row & Hrow & Hspec). exists row. split; [exact Hrow|].
    now apply editable_key_spec.
Qed.

Lemma fold_add_field_fresh (rows : list NodeRow) :
  forall acc,
    NoDup (map fst acc ++ map fst (editable_entries rows)) ->
    (forall k, In k (map fst (editable_entries rows)) -> array_index k = None) ->
    fold_left add_field rows acc = (acc ++ editable_entries rows)%list.
Proof.
  induction rows as [|row rows IH]; intros acc Hnd Hidx.
  - simpl. now rewrite app_nil_r.
  - cbn [fold_left]. unfold editable_entries in *. cbn [flat_map] in *.
    fold (editable_entries rows) in *.
    unfold add_field. destruct (editable_key row) as [k|].
    + cbn [app map fst] in Hnd, Hidx.
      assert (Hk : own_get acc k = None).
      { apply own_get_none_keys. intros Hin.
        apply NoDup_remove_2 in Hnd. apply Hnd. apply in_or_app. now left. }
      rewrite own_set_fresh; [|exact Hk | apply Hidx; now left].
      rewrite IH.
      * now rewrite <- app_assoc.
      * rewrite map_app, <- app_assoc. exact Hnd.
      * intros k0 H0. apply Hidx. now right.
    + apply IH; assumption.
Qed.

(** X5: When the rows that give a field (not containers, with a key that
    is neither empty nor [__proto__]) have distinct keys, none of them an
    array index, the fields are those rows one by one, in the order of the
    rows, each with the text of its value; so the first field is the first
    such row. *)
Theorem extractEditableFields_in_row_order (rows : list NodeRow) :
  NoDup (map fst (editable_entries rows)) ->
  (forall k, In k (map fst (editable_entries rows)) -> array_index k = None) ->
  NodeModal.extractEditableFields rows = editable_entries rows.
Proof.
  intros Hnd Hidx. rewrite extractEditableFields_fold.
  now rewrite fold_add_field_fresh.
Qed.

Lemma extractEditableFields_in_row_order_witness :
  NoDup (map fst (editable_entries
                    (rows_of_object [("name", JPrim (PStr "Ann")); ("age", num 30);
                                     ("tags", JArr [num 1]); ("ok", JPrim (PBool true))]))) /\
  NodeModal.extractEditableFields
    (rows_of_object [("name", JPrim (PStr "Ann")); ("age", num 30);
                     ("tags", JArr [num 1]); ("ok", JPrim (PBool true))])
  = [("name", "Ann"); ("age", "30"); ("ok", "true")].
Proof.
  assert (Hnd : NoDup (map fst (editable_entries
                    (rows_of_object [("name", JPrim (PStr "Ann")); ("age", num 30);
                                     ("tags", JArr [num 1]); ("ok", JPrim (PBool true))])))).
  { repeat constructor; simpl; intuition discriminate. }
  split; [exact Hnd|].
  rewrite (extractEditableFields_in_row_order _ Hnd); [reflexivity|].
  intros k Hk. simpl in Hk.
  destruct Hk as [<-|[<-|[<-|[]]]]; reflexivity.
Defined.

(* ================================================================== *)
(** * Array indices *)

(** A key that is an array index is the decimal text of that index. *)
Lemma array_index_text (k : string) (i : N) :
  array_index k = Some i -> k = decimal_of_N i.
Proof.
  unfold array_index. destruct k as [|c rest]; [discriminate|].
  destruct (negb (Ascii.eqb c "0") || String.eqb rest "") eqn:Hc; [|discriminate].
  unfold decimal_value.
  destruct (NilZero.uint_of_string (String c rest)) as [u|] eqn:Hu; [|discriminate].
  simpl. destruct (N.of_uint u <? 4294967295)%N; [|discriminate].
  intros [= <-].
  pose proof (NilZero.sus (String c rest) u Hu) as Hs.
  unfold decimal_of_N. rewrite DecimalN.Unsigned.to_of.
  assert (Hn : Decimal.unorm u = u).
  { simpl in Hu.
    destruct (NilEmpty.uint_of_string rest) as [d|] eqn:Hd; [|discriminate].
    apply uint_of_char_spec in Hu.
    destruct Hu as [[-> ->]|Hu].
    - simpl in Hc. apply String.eqb_eq in Hc. subst rest.
      simpl in Hd. injection Hd as <-. reflexivity.
    - repeat (destruct Hu as [[_ ->]|Hu]; [reflexivity|]).
      destruct Hu as [_ ->]. reflexivity. }
  now rewrite Hn.
Qed.

Lemma array_index_injective (k1 k2 : string) (i : N) :
  array_index k1 = Some i -> array_index k2 = Some i -> k1 = k2.
Proof.
  intros H1 H2. apply array_index_text in H1, H2. congruence.
Qed.

(* ================================================================== *)
(** * What a write leaves alone *)

Lemma js_get_same_key (v : Json) (s1 s2 : Seg) :
  seg_key s1 = seg_key s2 -> js_get v s1 = js_get v s2.
Proof.
  intros H. unfold js_get, absent, seg_index. now rewrite H.
Qed.

Lemma nth_error_array_set_other (l : list Json) (i j : nat) (v : Json) :
  i <> j -> (i < List.length l)%nat ->
  nth_error (array_set l i v) j = nth_error l j.
Proof.
  revert l j. induction i as [|i IH]; intros [|x l] [|j] Hne Hlt; simpl in *;
    try lia; try reflexivity.
  apply IH; lia.
Qed.

(** A write to a slot that is there leaves the other slots of the parent
    as they were. *)
Lemma js_set_other (parent parent' : Json) (l s : Seg) (v old : Json) :
  js_get parent l = Found old ->
  js_set parent l v = Ok parent' ->
  seg_key s <> seg_key l ->
  js_get parent' s = js_get parent s.
Proof.
  intros Hold Hset Hne.
  destruct parent as [p|a|m].
  - apply js_get_prim_char in Hold. destruct Hold as [c ->].
    cbn [js_set] in Hset. destruct (js_get (JPrim p) l); discriminate.
  - cbn [js_get js_set] in Hold, Hset.
    destruct (seg_index l) as [i|] eqn:Ei; [|now apply absent_found in Hold].
    injection Hset as <-. simpl.
    destruct (seg_index s) as [j|] eqn:Ej; [|reflexivity].
    destruct (nth_error a (N.to_nat i)) eqn:En; [|discriminate].
    rewrite nth_error_array_set_other; [reflexivity| |].
    + intros E. apply N2Nat.inj in E. subst j.
      apply Hne. unfold seg_index in *. eapply array_index_injective; eauto.
    + apply nth_error_Some. congruence.
  - cbn [js_get js_set] in Hold, Hset.
    destruct (own_get m (seg_key l)) eqn:El; [|now apply absent_found in Hold].
    injection Hset as <-. cbn [js_get].
    rewrite own_get_set_other; [reflexivity | exact Hne].
Qed.

Lemma js_replace_other (parent : Json) (l s : Seg) (child old : Json) :
  js_get parent l = Found old ->
  seg_key s <> seg_key l ->
  js_get (js_replace parent l child) s = js_get parent s.
Proof.
  intros Hold Hne. unfold js_replace.
  destruct (js_set parent l child) as [[p'| |]|] eqn:E; try reflexivity.
  eapply js_set_other; eauto.
Qed.

Lemma descend_primitive (final : Json -> Walk Json) :
  (forall p r, final (JPrim p) <> Ok r) ->
  forall inter p r, descend (JPrim p) inter final <> Ok r.
Proof.
  intros Hf inter. induction inter as [|s rest IH]; intros p r; cbn [descend].
  - apply Hf.
  - destruct (js_get (JPrim p) s) as [child| | |] eqn:E; try discriminate.
    apply js_get_prim_char in E. destruct E as [c ->].
    destruct (descend (JPrim (PStr c)) rest final) as [[r'| |]|] eqn:Ed; try discriminate.
    now destruct (IH (PStr c) r').
Qed.

Lemma diverges_head (l : Seg) (q : list Seg) :
  diverges [l] q = true ->
  exists s r, q = s :: r /\ seg_key s <> seg_key l.
Proof.
  destruct q as [|s r]; simpl; [discriminate|].
  destruct (String.eqb_spec (seg_key l) (seg_key s)) as [E|E]; [discriminate|].
  intros _. exists s, r. split; [reflexivity | congruence].
Qed.

(** The walk changes nothing off the path it walked, when its final step
    fails on primitives and leaves the other slots of the container
    alone. *)
Lemma descend_frame (l : Seg) (final : Json -> Walk Json) :
  (forall p r, final (JPrim p) <> Ok r) ->
  forall inter root root',
    descend root inter final = Ok root' ->
    (forall parent parent' s,
        get_path root inter = Found parent ->
        final parent = Ok parent' ->
        seg_key s <> seg_key l ->
        js_get parent' s = js_get parent s) ->
    forall q, diverges (inter ++ [l]) q = true ->
              get_path root' q = get_path root q.
Proof.
  intros Hprim inter.
  induction inter as [|s0 rest IH]; intros root root' Hd Hfinal q Hq.
  - cbn [descend] in Hd. apply diverges_head in Hq.
    destruct Hq as (s & r & -> & Hne). cbn [get_path].
    now rewrite (Hfinal root root' s eq_refl Hd Hne).
  - cbn [descend] in Hd.
    destruct (js_get root s0) as [child| | |] eqn:E; try discriminate.
    destruct (descend child rest final) as [[child'| |]|] eqn:Ed; try discriminate.
    simpl in Hd. injection Hd as <-.
    assert (Hc : is_container root = true).
    { destruct root as [p| |]; auto.
      apply js_get_prim_char in E. destruct E as [c ->].
      now destruct (@descend_primitive final Hprim rest (PStr c) child'). }
    destruct q as [|s q']; [discriminate|].
    change (diverges ((s0 :: rest) ++ [l]) (s :: q'))
      with (if String.eqb (seg_key s0) (seg_key s)
            then diverges (rest ++ [l]) q' else true) in Hq.
    cbn [get_path].
    destruct (String.eqb_spec (seg_key s0) (seg_key s)) as [Ek|Ek].
    + rewrite <- (js_get_same_key _ s0 s Ek), <- (js_get_same_key root s0 s Ek).
      rewrite js_replace_get by (eapply js_get_found_holds; eauto).
      rewrite E. apply (IH child child' Ed); [|exact Hq].
      intros parent parent' s1 Hp. apply Hfinal. cbn [get_path]. now rewrite E.
    + rewrite (@js_replace_other root s0 s child' child E) by congruence.
      reflexivity.
Qed.

Lemma TextNode_final_step_primitive (l : Seg) (draft : string) (p : Prim) (r : Json) :
  TextNode.final_step l draft (JPrim p) <> Ok r.
Proof.
  unfold TextNode.final_step. cbn [js_set].
  destruct (js_get (JPrim p) l); discriminate.
Qed.

Lemma NodeModal_final_step_primitive (l : Seg) (fields : props string) (p : Prim) (r : Json) :
  NodeModal.final_step l fields (JPrim p) <> Ok r.
Proof.
  unfold NodeModal.final_step.
  destruct (js_get (JPrim p) l) as [child| | |] eqn:E; try discriminate.
  - apply js_get_prim_char in E. destruct E as [c ->].
    cbn [js_set]. destruct (js_get (JPrim p) l); discriminate.
  - cbn [js_set]. rewrite E. discriminate.
Qed.

(** The final step of the modal changes slot [l] only, when the slot is
    there. *)
Lemma NodeModal_final_step_other (l s : Seg) (fields : props string)
      (parent parent' old : Json) :
  js_get parent l = Found old ->
  NodeModal.final_step l fields parent = Ok parent' ->
  seg_key s <> seg_key l ->
  js_get parent' s = js_get parent s.
Proof.
  intros Hold Hf Hne. unfold NodeModal.final_step in Hf. rewrite Hold in Hf.
  destruct old as [p|a|m].
  - eapply js_set_other; eauto.
  - eapply js_set_other; eauto.
  - destruct (NodeModal.assign_fields (JObj m) fields) as [[t| |]|]; try discriminate.
    simpl in Hf. injection Hf as <-. eapply js_replace_other; eauto.
Qed.

(* ================================================================== *)
(** * Edits of a slot that is there *)

Lemma diverges_nonempty (p q : list Seg) : diverges p q = true -> p <> [].
Proof. destruct p; [discriminate | intros _; discriminate]. Qed.

(** X7: The inline editor on a value that is there, in an object or an array
    (an element, for an array): the save publishes a document that holds
    the coerced draft at the path and reads as before along every path that
    parts ways with it. *)
Theorem inline_edit_existing_slot
        (JSON_parse : string -> option Json) (beyond : Runtime string)
        (w : World) (v : option Prim)
        (draft : string) (root : Json) (inter : list Seg) (l : Seg)
        (parent old : Json) :
  parse_current JSON_parse (json w) = Ok root ->
  TextNode.shown v <> draft ->
  get_path root inter = Found parent ->
  is_container parent = true ->
  js_get parent l = Found old ->
  exists root',
    TextNode.handleSave JSON_parse beyond w v (Some (inter ++ [l])%list) draft
    = published_json (stringify root') w /\
    get_path root' (inter ++ [l]) = Found (JPrim (TextNode.parseDraftValue draft)) /\
    forall q, diverges (inter ++ [l]) q = true -> get_path root' q = get_path root q.
Proof.
  intros Hparse Hd Hp Hc Hold.
  assert (Hslot : holds_slot parent l = true) by (eapply js_get_found_holds; eauto).
  destruct (@inline_scalar_commit root inter l parent draft Hp Hslot) as (root' & Hu & Hg).
  exists root'. split; [|split; [exact Hg|]].
  - apply TextNode_handleSave_ok with (parsed := root); auto.
    destruct inter; discriminate.
  - rewrite TextNode_update_snoc in Hu.
    apply (@descend_frame l (TextNode.final_step l draft)
             (fun p r => @TextNode_final_step_primitive l draft p r) inter root root' Hu).
    intros parent0 parent' s Hp0 Hf Hne.
    rewrite Hp in Hp0. injection Hp0 as <-.
    eapply js_set_other; eauto.
Qed.

Lemma inline_edit_existing_slot_witness :
  parse_current (reads doc_list) (json (editing (stringify doc_list))) = Ok doc_list /\
  TextNode.shown (Some (PNum (number_of_N 2))) <> "99" /\
  get_path doc_list [] = Found doc_list /\
  js_get doc_list (Idx 1) = Found (num 2) /\
  exists root',
    TextNode.handleSave (reads doc_list) raises (editing (stringify doc_list))
      (Some (PNum (number_of_N 2))) (Some [Idx 1]) "99"
    = published_json (stringify root') (editing (stringify doc_list)) /\
    get_path root' [Idx 1] = Found (num 99) /\
    get_path root' [Idx 0] = Found (num 1) /\
    get_path root' [Idx 2] = Found (num 3).
Proof.
  assert (Hd : TextNode.shown (Some (PNum (number_of_N 2))) <> "99") by discriminate.
  destruct (@inline_edit_existing_slot (reads doc_list) raises (editing (stringify doc_list))
              (Some (PNum (number_of_N 2))) "99" doc_list [] (Idx 1) doc_list (num 2)
              eq_refl Hd eq_refl eq_refl eq_refl) as (root' & Hs & Hg & Hframe).
  refine (conj eq_refl (conj Hd (conj eq_refl (conj eq_refl _)))).
  exists root'. repeat split.
  - exact Hs.
  - exact Hg.
  - rewrite (Hframe [Idx 0]); reflexivity.
  - rewrite (Hframe [Idx 2]); reflexivity.
Defined.

(** X8: The modal on a value that is there and is not an object (a primitive,
    [null], or an array), in an object or an array: the save replaces the
    whole value by the coerced first field, or by the empty string when
    there is no field, and publishes the result to both stores. *)
Theorem modal_scalar_edit_existing_slot
        (JSON_parse : string -> option Json) (beyond : Runtime (props string))
        (w : World) (nd : NodeData)
        (fields : props string) (root : Json) (inter : list Seg) (l : Seg)
        (parent old : Json) :
  parse_current JSON_parse (json w) = Ok root ->
  NodeModal.path_of nd = (inter ++ [l])%list ->
  get_path root inter = Found parent ->
  is_container parent = true ->
  js_get parent l = Found old ->
  (forall m, old <> JObj m) ->
  exists root',
    NodeModal.handleSave JSON_parse beyond w (Some nd) fields
    = published_both (stringify root') w /\
    get_path root' (inter ++ [l])
    = Found (JPrim (parseDraftValue (NodeModal.firstFieldValue fields))).
Proof.
  intros Hparse Hpath Hp Hc Hold Hnot.
  assert (Hslot : holds_slot parent l = true) by (eapply js_get_found_holds; eauto).
  destruct (@modal_scalar_commit root inter l parent fields Hp Hslot) as (root' & Hu & Hg).
  { intros m. rewrite Hold. intros [= E]. now destruct (Hnot m). }
  { rewrite Hold. discriminate. }
  exists root'. split; [|exact Hg].
  apply NodeModal_handleSave_ok with (root := root); [exact Hparse|].
  now rewrite Hpath.
Qed.

Lemma modal_scalar_edit_existing_slot_witness :
  parse_current (reads doc_card) (json (editing (stringify doc_card))) = Ok doc_card /\
  get_path doc_card [Key "card"]
  = Found (JObj [("name", JPrim (PStr "Ann")); ("age", num 30);
                 ("ok", JPrim (PBool true)); ("tags", JArr [num 1])]) /\
  exists root',
    NodeModal.handleSave (reads doc_card) raises (editing (stringify doc_card))
      (Some {| text := []; path := Some [Key "card"; Key "tags"] |}) []
    = published_both (stringify root') (editing (stringify doc_card)) /\
    get_path root' [Key "card"; Key "tags"] = Found (JPrim (PStr "")).
Proof.
  refine (conj eq_refl (conj eq_refl _)).
  apply (@modal_scalar_edit_existing_slot (reads doc_card) raises
           (editing (stringify doc_card))
           {| text := []; path := Some [Key "card"; Key "tags"] |} []
           doc_card [Key "card"] (Key "tags")
           (JObj [("name", JPrim (PStr "Ann")); ("age", num 30);
                  ("ok", JPrim (PBool true)); ("tags", JArr [num 1])])
           (JArr [num 1]) eq_refl eq_refl eq_refl eq_refl eq_refl).
  discriminate.
Defined.

(** X9: The modal's commit, by fields or by scalar, on a value that is there:
    the new document reads as before along every path that parts ways with
    the path of the node. *)
Theorem modal_commit_frame (root root' : Json) (path : list Seg)
        (fields : props string) (old : Json) :
  get_path root path = Found old ->
  NodeModal.update root path fields = Ok root' ->
  forall q, diverges path q = true -> get_path root' q = get_path root q.
Proof.
  intros Hold Hu q Hq.
  destruct (path_snoc (@diverges_nonempty path q Hq)) as (inter & l & ->).
  rewrite NodeModal_update_snoc in Hu.
  rewrite get_path_last in Hold.
  destruct (get_path root inter) as [parent| | |] eqn:Hp; try discriminate.
  apply (@descend_frame l (NodeModal.final_step l fields)
           (fun p r => @NodeModal_final_step_primitive l fields p r) inter root root' Hu); [|exact Hq].
  intros parent0 parent' s Hp0 Hf Hne.
  rewrite Hp in Hp0. injection Hp0 as <-.
  eapply NodeModal_final_step_other; eauto.
Qed.

Lemma modal_commit_frame_witness :
  get_path doc_card [Key "card"; Key "age"] = Found (num 30) /\
  NodeModal.update doc_card [Key "card"; Key "age"] [("age", "31")]
  = Ok (JObj [("card", JObj [("name", JPrim (PStr "Ann")); ("age", num 31);
                             ("ok", JPrim (PBool true)); ("tags", JArr [num 1])])]) /\
  diverges [Key "card"; Key "age"] [Key "card"; Key "tags"; Idx 0] = true /\
  get_path (JObj [("card", JObj [("name", JPrim (PStr "Ann")); ("age", num 31);
                                 ("ok", JPrim (PBool true)); ("tags", JArr [num 1])])])
           [Key "card"; Key "tags"; Idx 0]
  = get_path doc_card [Key "card"; Key "tags"; Idx 0].
Proof.
  refine (conj eq_refl (conj eq_refl (conj eq_refl _))).
  apply (@modal_commit_frame doc_card _ [Key "card"; Key "age"] [("age", "31")]
           (num 30) eq_refl eq_refl).
  reflexivity.
Defined.

(* ================================================================== *)
(** * How a save ends *)

Lemma descend_not_found (final : Json -> Walk Json) (inter : list Seg) :
  forall root,
    (get_path root inter = Undefined -> descend root inter final = Return) /\
    (get_path root inter = TypeError -> descend root inter final = Throw) /\
    (get_path root inter = Builtin -> descend root inter final = Leaves).
Proof.
  induction inter as [|s rest IH]; intros root; cbn [get_path descend].
  - repeat split; discriminate.
  - destruct (js_get root s) as [child| | |];
      [|repeat split; (reflexivity || discriminate)..].
    destruct (IH child) as (H1 & H2 & H3).
    repeat split; intros H; [rewrite (H1 H) | rewrite (H2 H) | rewrite (H3 H)];
      reflexivity.
Qed.

Lemma descend_final_throws (final : Json -> Walk Json) (inter : list Seg) :
  forall root parent,
    get_path root inter = Found parent ->
    final parent = Throw ->
    descend root inter final = Throw.
Proof.
  induction inter as [|s rest IH]; intros root parent Hp Hf; cbn [get_path descend] in *.
  - now injection Hp as <-.
  - destruct (js_get root s) as [child| | |]; try discriminate.
    now rewrite (IH child parent Hp Hf).
Qed.

(** In a container, a write under a segment that does not read what the
    runtime provides goes through. *)
Lemma js_set_container (parent : Json) (l : Seg) (v : Json) :
  is_container parent = true ->
  js_get parent l <> Builtin ->
  exists parent', js_set parent l v = Ok parent'.
Proof.
  intros Hc Hdoc. destruct parent as [p|a|m]; [discriminate| |]; cbn [js_set].
  - destruct (seg_index l); eauto.
    destruct (js_get (JArr a) l); eauto. congruence.
  - destruct (own_get m (seg_key l)); eauto.
    destruct (String.eqb (seg_key l) proto); eauto.
Qed.

(** On a primitive, a write under such a segment raises. *)
Lemma js_set_primitive (p : Prim) (l : Seg) (v : Json) :
  js_get (JPrim p) l <> Builtin -> js_set (JPrim p) l v = Throw.
Proof.
  intros Hdoc. cbn [js_set]. destruct (js_get (JPrim p) l); congruence.
Qed.

Lemma NodeModal_final_step_container (l : Seg) (fields : props string) (parent : Json) :
  is_container parent = true ->
  js_get parent l <> Builtin ->
  exists parent', NodeModal.final_step l fields parent = Ok parent'.
Proof.
  intros Hc Hdoc. unfold NodeModal.final_step.
  pose proof (fun v => @js_set_container parent l v Hc Hdoc) as Hset.
  destruct (js_get parent l) as [[p|a|m]| | |] eqn:E; auto.
  - destruct (assign_fields_object fields m) as (m' & -> & _). simpl. eauto.
  - apply js_get_type_error in E. subst parent. discriminate.
  - congruence.
Qed.

Lemma NodeModal_final_step_on_primitive (l : Seg) (fields : props string) (p : Prim) :
  js_get (JPrim p) l <> Builtin ->
  NodeModal.final_step l fields (JPrim p) = Throw.
Proof.
  intros Hdoc. unfold NodeModal.final_step.
  destruct (js_get (JPrim p) l) as [child| | |] eqn:E; try reflexivity.
  - pose proof E as E'. apply js_get_prim_char in E'. destruct E' as [c ->].
    cbn [js_set]. now rewrite E.
  - cbn [js_set]. now rewrite E.
  - congruence.
Qed.

(** X10: How the modal's save ends on a path none of whose segments reads
    what the runtime provides is decided by where the segments before the
    last lead: to an object or an array, and the save publishes; to [null]
    or another primitive, and the write raises and is reported; to an
    undefined slot on the way, and the invalid path is reported; through
    [null] on the way, and the read raises and is reported.  Only the first
    changes a store. *)
Theorem modal_save_outcome
        (JSON_parse : string -> option Json) (beyond : Runtime (props string))
        (w : World) (nd : NodeData)
        (fields : props string) (root : Json) (inter : list Seg) (l : Seg) :
  parse_current JSON_parse (json w) = Ok root ->
  NodeModal.path_of nd = (inter ++ [l])%list ->
  get_path root (inter ++ [l]) <> Builtin ->
  match get_path root inter with
  | Found parent =>
      if is_container parent
      then exists root', NodeModal.handleSave JSON_parse beyond w (Some nd) fields
                         = published_both (stringify root') w
      else NodeModal.handleSave JSON_parse beyond w (Some nd) fields
           = abandoned ["Failed to update JSON from NodeModal"] w
  | Undefined =>
      NodeModal.handleSave JSON_parse beyond w (Some nd) fields
      = abandoned ["Invalid path while updating node"] w
  | TypeError =>
      NodeModal.handleSave JSON_parse beyond w (Some nd) fields
      = abandoned ["Failed to update JSON from NodeModal"] w
  | Builtin => False
  end.
Proof.
  intros Hparse Hpath Hdoc. rewrite get_path_last in Hdoc.
  unfold NodeModal.handleSave. rewrite Hparse, Hpath. cbn [bind].
  rewrite NodeModal_update_snoc.
  destruct (descend_not_found (NodeModal.final_step l fields) inter root)
    as (Hu & Ht & _).
  destruct (get_path root inter) as [parent| | |] eqn:Hp.
  - destruct (is_container parent) eqn:Hc.
    + destruct (NodeModal_final_step_container l fields parent Hc Hdoc)
        as (parent' & Hf).
      destruct (@descend_found inter _ root parent parent' Hp Hc Hf) as (root' & -> & _).
      exists root'. reflexivity.
    + destruct parent as [p| |]; try discriminate.
      now rewrite (@descend_final_throws _ inter root (JPrim p) Hp
                     (@NodeModal_final_step_on_primitive l fields p Hdoc)).
  - now rewrite (Hu eq_refl).
  - now rewrite (Ht eq_refl).
  - now apply Hdoc.
Qed.

Lemma modal_save_outcome_witness :
  parse_current (reads doc_a5) (json (editing (stringify doc_a5))) = Ok doc_a5 /\
  get_path doc_a5 [Key "a"; Key "b"] <> Builtin /\
  get_path doc_a5 [Key "a"] = Found (num 5) /\
  NodeModal.handleSave (reads doc_a5) raises (editing (stringify doc_a5))
    (Some {| text := []; path := Some [Key "a"; Key "b"] |}) [("b", "1")]
  = abandoned ["Failed to update JSON from NodeModal"] (editing (stringify doc_a5)).
Proof.
  assert (Hdoc : get_path doc_a5 [Key "a"; Key "b"] <> Builtin) by discriminate.
  refine (conj eq_refl (conj Hdoc (conj eq_refl _))).
  exact (@modal_save_outcome (reads doc_a5) raises (editing (stringify doc_a5))
           {| text := []; path := Some [Key "a"; Key "b"] |} [("b", "1")]
           doc_a5 [Key "a"] (Key "b") eq_refl eq_refl Hdoc).
Defined.

(** X11: The same for the inline editor, past its guards: it publishes to the
    JSON store, reports a raised error, or returns in silence on an
    undefined slot. *)
Theorem inline_save_outcome
        (JSON_parse : string -> option Json) (beyond : Runtime string)
        (w : World) (v : option Prim)
        (draft : string) (root : Json) (inter : list Seg) (l : Seg) :
  parse_current JSON_parse (json w) = Ok root ->
  TextNode.shown v <> draft ->
  get_path root (inter ++ [l]) <> Builtin ->
  match get_path root inter with
  | Found parent =>
      if is_container parent
      then exists root', TextNode.handleSave JSON_parse beyond w v (Some (inter ++ [l])%list) draft
                         = published_json (stringify root') w
      else TextNode.handleSave JSON_parse beyond w v (Some (inter ++ [l])%list) draft
           = abandoned ["Failed to update JSON from node editor"] w
  | Undefined =>
      TextNode.handleSave JSON_parse beyond w v (Some (inter ++ [l])%list) draft
      = {| json := json w; contents := contents w; isEditing := false;
           console := console w |}
  | TypeError =>
      TextNode.handleSave JSON_parse beyond w v (Some (inter ++ [l])%list) draft
      = abandoned ["Failed to update JSON from node editor"] w
  | Builtin => False
  end.
Proof.
  intros Hparse Hd Hdoc. rewrite get_path_last in Hdoc.
  assert (Hne : (inter ++ [l])%list <> []) by (destruct inter; discriminate).
  apply String.eqb_neq in Hd.
  rewrite (TextNode_handleSave_past_guards JSON_parse beyond w v draft Hne Hd).
  rewrite Hparse. cbn [bind]. rewrite TextNode_update_snoc.
  destruct (descend_not_found (TextNode.final_step l draft) inter root)
    as (Hu & Ht & _).
  destruct (get_path root inter) as [parent| | |] eqn:Hp.
  - destruct (is_container parent) eqn:Hc.
    + destruct (@js_set_container parent l (JPrim (TextNode.parseDraftValue draft))
                  Hc Hdoc) as (parent' & Hf).
      destruct (@descend_found inter (TextNode.final_step l draft) root parent
                  parent' Hp Hc Hf) as (root' & -> & _).
      exists root'. reflexivity.
    + destruct parent as [p| |]; try discriminate.
      now rewrite (@descend_final_throws (TextNode.final_step l draft) inter root
                     (JPrim p) Hp (@js_set_primitive p l _ Hdoc)).
  - now rewrite (Hu eq_refl).
  - now rewrite (Ht eq_refl).
  - now apply Hdoc.
Qed.

Lemma inline_save_outcome_witness :
  parse_current (reads doc_null) (json (editing (stringify doc_null))) = Ok doc_null /\
  TextNode.shown None <> "1" /\
  get_path doc_null [Key "a"; Key "b"; Key "c"] <> Builtin /\
  get_path doc_null [Key "a"; Key "b"] = TypeError /\
  TextNode.handleSave (reads doc_null) raises (editing (stringify doc_null)) None
    (Some [Key "a"; Key "b"; Key "c"]) "1"
  = abandoned ["Failed to update JSON from node editor"] (editing (stringify doc_null)).
Proof.
  assert (Hd : TextNode.shown None <> "1") by discriminate.
  assert (Hdoc : get_path doc_null [Key "a"; Key "b"; Key "c"] <> Builtin)
    by discriminate.
  refine (conj eq_refl (conj Hd (conj Hdoc (conj eq_refl _)))).
  exact (@inline_save_outcome (reads doc_null) raises (editing (stringify doc_null))
           None "1" doc_null [Key "a"; Key "b"] (Key "c") eq_refl Hd Hdoc).
Defined.

(** X12: Whatever the stores hold and whatever is asked, a save of either editor
    ends with the editor out of edit mode. *)
Theorem save_leaves_edit_mode (JSON_parse : string -> option Json) (w : World) :
  (forall (beyond : Runtime (props string)) nodeData fields,
      isEditing (NodeModal.handleSave JSON_parse beyond w nodeData fields) = false) /\
  (forall (beyond : Runtime string) v p draft,
      isEditing (TextNode.handleSave JSON_parse beyond w v p draft) = false).
Proof.
  split.
  - intros beyond [nd|] fields; [|reflexivity]. unfold NodeModal.handleSave.
    now destruct (bind _ _).
  - intros beyond v p draft. unfold TextNode.handleSave.
    destruct (String.eqb _ _); [reflexivity|].
    destruct p as [[|s p]|]; try reflexivity.
    now destruct (bind _ _).
Qed.

(** X13: A save of the modal leaves both stores untouched or sets both to one
    text: stores that agree before it agree after it. *)
Theorem modal_save_keeps_stores_agreeing
        (JSON_parse : string -> option Json) (beyond : Runtime (props string))
        (w : World)
        (nodeData : option NodeData) (fields : props string) :
  (json (NodeModal.handleSave JSON_parse beyond w nodeData fields) = json w /\
   contents (NodeModal.handleSave JSON_parse beyond w nodeData fields) = contents w) \/
  json (NodeModal.handleSave JSON_parse beyond w nodeData fields)
  = contents (NodeModal.handleSave JSON_parse beyond w nodeData fields).
Proof.
  destruct nodeData as [nd|]; [|left; split; reflexivity].
  unfold NodeModal.handleSave.
  destruct (bind _ _); [right | left; split | left; split]; reflexivity.
Qed.

(** X14: When the JSON store holds a text that [JSON.parse] rejects, a save
    publishes nothing: both editors report the failure and leave edit
    mode. *)
Theorem save_on_rejected_text (JSON_parse : string -> option Json) (w : World) :
  json w <> "" ->
  JSON_parse (json w) = None ->
  (forall (beyond : Runtime (props string)) nd fields,
      NodeModal.handleSave JSON_parse beyond w (Some nd) fields
      = abandoned ["Failed to update JSON from NodeModal"] w) /\
  (forall (beyond : Runtime string) v p draft,
      TextNode.shown v <> draft -> p <> [] ->
      TextNode.handleSave JSON_parse beyond w v (Some p) draft
      = abandoned ["Failed to update JSON from node editor"] w).
Proof.
  intros Hne Hnone.
  assert (Hp : parse_current JSON_parse (json w) = Throw).
  { unfold parse_current. apply String.eqb_neq in Hne. now rewrite Hne, Hnone. }
  split.
  - intros beyond nd fields. unfold NodeModal.handleSave. now rewrite Hp.
  - intros beyond v p draft Hd Hpne. apply String.eqb_neq in Hd.
    rewrite (TextNode_handleSave_past_guards JSON_parse beyond w v draft Hpne Hd).
    now rewrite Hp.
Qed.

Lemma save_on_rejected_text_witness :
  json (editing "{") <> "" /\
  NodeModal.handleSave (fun _ => None) raises (editing "{")
    (Some {| text := []; path := Some [Key "a"] |}) [("a", "1")]
  = abandoned ["Failed to update JSON from NodeModal"] (editing "{").
Proof.
  assert (Hne : json (editing "{") <> "") by discriminate.
  destruct (@save_on_rejected_text (fun _ => None) (editing "{") Hne eq_refl)
    as [Hmodal _].
  exact (conj Hne (Hmodal raises _ _)).
Defined.

(** X15: At the root the modal tests [typeof === "object"] without the test for
    [null]: on a [null] document a save with some field raises and is
    reported, and a save with no field publishes the text [null]. *)
Theorem modal_save_on_null_root
        (JSON_parse : string -> option Json) (beyond : Runtime (props string))
        (w : World) (nd : NodeData)
        (fields : props string) :
  parse_current JSON_parse (json w) = Ok (JPrim PNull) ->
  NodeModal.path_of nd = [] ->
  NodeModal.handleSave JSON_parse beyond w (Some nd) fields
  = match fields with
    | [] => published_both "null" w
    | _ :: _ => abandoned ["Failed to update JSON from NodeModal"] w
    end.
Proof.
  intros Hparse Hpath. unfold NodeModal.handleSave.
  rewrite Hparse, Hpath. destruct fields as [|[k v] rest]; reflexivity.
Qed.

Lemma modal_save_on_null_root_witness :
  parse_current (reads (JPrim PNull)) (json (editing "null")) = Ok (JPrim PNull) /\
  NodeModal.handleSave (reads (JPrim PNull)) raises (editing "null")
    (Some {| text := [row_of PNull]; path := Some [] |}) [("a", "1")]
  = abandoned ["Failed to update JSON from NodeModal"] (editing "null").
Proof.
  refine (conj eq_refl _).
  exact (@modal_save_on_null_root (reads (JPrim PNull)) raises (editing "null")
           {| text := [row_of PNull]; path := Some [] |} [("a", "1")] eq_refl eq_refl).
Defined.

(* ================================================================== *)
(** * Keys of the inline editor *)

Lemma shown_is_field_text (v : option Prim) : TextNode.shown v = field_text v.
Proof. reflexivity. Qed.

(** X16: Escape and then Enter do nothing to the document: Escape puts the text
    of the value back in the draft, so the save that Enter asks for stops
    at its no-change guard, before the text of the store is read.  The
    same holds of Enter on a draft that was just synchronised. *)
Theorem escape_then_enter_is_noop
        (JSON_parse : string -> option Json) (beyond : Runtime string)
        (v : option Prim)
        (p : option (list Seg)) (w : World) (draft : string) :
  NodeView.handleKeyDown JSON_parse beyond "Enter" v p
    (fst (NodeView.handleKeyDown JSON_parse beyond "Escape" v p w draft))
    (snd (NodeView.handleKeyDown JSON_parse beyond "Escape" v p w draft))
  = (setIsEditing false w, field_text v) /\
  (isEditing w = false ->
   NodeView.handleKeyDown JSON_parse beyond "Enter" v p
     (NodeView.handleEditClick w) (NodeView.syncDraft v w draft)
   = (setIsEditing false w, field_text v)).
Proof.
  split.
  - unfold NodeView.handleKeyDown. simpl String.eqb. cbv iota.
    unfold NodeView.handleCancel. cbn [fst snd].
    unfold TextNode.handleSave. rewrite shown_is_field_text, String.eqb_refl.
    reflexivity.
  - intros Hw. unfold NodeView.handleKeyDown, NodeView.syncDraft. rewrite Hw.
    simpl String.eqb. cbv iota.
    unfold TextNode.handleSave. rewrite shown_is_field_text, String.eqb_refl.
    reflexivity.
Qed.

Lemma escape_then_enter_is_noop_witness :
  isEditing (setIsEditing false (editing "{")) = false /\
  NodeView.handleKeyDown (fun _ => None) raises "Enter" (Some (PBool true))
    (Some [Key "flag"])
    (NodeView.handleEditClick (setIsEditing false (editing "{")))
    (NodeView.syncDraft (Some (PBool true)) (setIsEditing false (editing "{")) "stale")
  = (setIsEditing false (editing "{"), "true").
Proof.
  refine (conj eq_refl _).
  exact (proj2 (escape_then_enter_is_noop (fun _ => None) raises (Some (PBool true))
                  (Some [Key "flag"]) (setIsEditing false (editing "{")) "stale")
               eq_refl).
Defined.

(* ================================================================== *)
(** * What the coercion yields *)

Lemma strip_leading_zeros_spec (ds : string) :
  forall z r, strip_leading_zeros ds = (z, r) ->
              strip_leading_zeros r = (O, r) /\
              (all_digits ds = true -> all_digits r = true).
Proof.
  induction ds as [|c ds IH]; intros z r; simpl.
  - intros [= <- <-]. auto.
  - destruct (Ascii.eqb c "0") eqn:E.
    + destruct (strip_leading_zeros ds) as [n r'].
      intros [= <- <-]. destruct (IH n r' eq_refl) as [H1 H2].
      split; [exact H1|]. intros H. apply andb_true_iff in H. tauto.
    + intros [= <- <-]. split; [|auto]. simpl. now rewrite E.
Qed.

Lemma strip_trailing_zeros_idempotent (s : string) :
  strip_trailing_zeros (strip_trailing_zeros s) = strip_trailing_zeros s.
Proof.
  induction s as [|c s IH]; simpl; [reflexivity|].
  destruct (strip_trailing_zeros s) as [|d r] eqn:E.
  - destruct (Ascii.eqb c "0") eqn:Ec; simpl; [reflexivity | now rewrite Ec].
  - simpl in *. now rewrite IH.
Qed.

Lemma strip_trailing_zeros_digits (s : string) :
  all_digits s = true -> all_digits (strip_trailing_zeros s) = true.
Proof.
  induction s as [|c s IH]; simpl; [reflexivity|].
  intros H. apply andb_true_iff in H. destruct H as [Hc Hs].
  specialize (IH Hs).
  destruct (strip_trailing_zeros s) as [|d r].
  - destruct (Ascii.eqb c "0"); simpl; [reflexivity | now rewrite Hc].
  - simpl in *. now rewrite Hc.
Qed.

Lemma strip_trailing_zeros_head (s : string) :
  strip_leading_zeros s = (O, s) ->
  strip_leading_zeros (strip_trailing_zeros s) = (O, strip_trailing_zeros s).
Proof.
  destruct s as [|c s]; [reflexivity|].
  intros H. apply strip_leading_zeros_head in H.
  simpl. rewrite H. destruct (strip_trailing_zeros s); simpl; now rewrite H.
Qed.

(** A normal form is well formed, or is negative zero. *)
Lemma normalize_well_formed (neg : bool) (ds : string) (p : Z) :
  all_digits ds = true ->
  well_formed (normalize neg ds p) \/ normalize neg ds p = negative_zero.
Proof.
  intros Hd. unfold normalize.
  destruct (strip_leading_zeros ds) as [z r] eqn:El.
  destruct (strip_leading_zeros_spec ds El) as [Hl Hr]. specialize (Hr Hd).
  pose proof (strip_trailing_zeros_digits r Hr) as Hd2.
  pose proof (strip_trailing_zeros_head Hl) as Hl2.
  pose proof (strip_trailing_zeros_idempotent r) as Ht2.
  destruct (strip_trailing_zeros r) as [|c r2] eqn:Et.
  - destruct neg; [right; reflexivity | left; simpl; auto].
  - left. simpl. right. repeat split; auto. discriminate.
Qed.

Lemma span_digits_digits (s : string) : all_digits (fst (span_digits s)) = true.
Proof.
  induction s as [|c s IH]; simpl; [reflexivity|].
  destruct (is_digit c) eqn:E; [|reflexivity].
  destruct (span_digits s) as [d r]. simpl in *. now rewrite E.
Qed.

Lemma unsigned_decimal_digits (s ds : string) (p : Z) :
  unsigned_decimal s = Some (ds, p) -> all_digits ds = true.
Proof.
  unfold unsigned_decimal.
  pose proof (span_digits_digits s) as Hip.
  destruct (span_digits s) as [ip r1]. simpl in Hip.
  assert (Hfp : forall fp r2,
             match r1 with
             | String c r => if Ascii.eqb c "." then span_digits r else (EmptyString, r1)
             | EmptyString => (EmptyString, r1)
             end = (fp, r2) -> all_digits fp = true).
  { intros fp r2. destruct r1 as [|c r]; [now intros [= <- <-]|].
    destruct (Ascii.eqb c ".").
    - intros E. pose proof (span_digits_digits r) as H. rewrite E in H. exact H.
    - now intros [= <- <-]. }
  destruct (match r1 with
            | String c r => if Ascii.eqb c "." then span_digits r else (EmptyString, r1)
            | EmptyString => (EmptyString, r1)
            end) as [fp r2].
  specialize (Hfp fp r2 eq_refl).
  assert (Hall : all_digits (ip ++ fp) = true) by (now rewrite all_digits_append, Hip, Hfp).
  destruct (ip ++ fp) as [|c0 s0] eqn:E; [discriminate|].
  destruct r2 as [|c r3].
  - now intros [= <- <-].
  - destruct (Ascii.eqb c "e" || Ascii.eqb c "E"); [|discriminate].
    destruct (exponent_part r3); [|discriminate]. now intros [= <- <-].
Qed.

(** What [Number] reads is well formed, or is negative zero. *)
Lemma StringToNumber_well_formed (t : string) (x : number) :
  StringToNumber t = Some x -> well_formed x \/ x = negative_zero.
Proof.
  unfold StringToNumber. destruct (trim t) as [|c r].
  - intros [= <-]. left. simpl. auto.
  - destruct (non_decimal_integer (String c r)) as [n|].
    + intros [= <-]. unfold number_of_N.
      apply normalize_well_formed. apply decimal_of_N_digits.
    + unfold signed_decimal. destruct (strip_sign (String c r)) as [neg u].
      destruct (String.eqb u "Infinity"); [intros [= <-]; left; exact I|].
      destruct (unsigned_decimal u) as [[ds p]|] eqn:E; [|discriminate].
      intros [= <-]. apply normalize_well_formed.
      eapply unsigned_decimal_digits; eauto.
Qed.

Lemma parseDraftValue_number (raw : string) (x : number) :
  parseDraftValue raw = PNum x -> well_formed x \/ x = negative_zero.
Proof.
  unfold parseDraftValue. cbv zeta.
  destruct (String.eqb (trim raw) "null"); [discriminate|].
  destruct (String.eqb (trim raw) "true"); [discriminate|].
  destruct (String.eqb (trim raw) "false"); [discriminate|].
  destruct (negb (String.eqb (trim raw) "")); [|discriminate].
  destruct (StringToNumber (trim raw)) as [n|] eqn:E; [|discriminate].
  intros [= <-]. eapply StringToNumber_well_formed; eauto.
Qed.

Lemma parseDraftValue_string (raw s : string) :
  parseDraftValue raw = PStr s -> s = raw.
Proof.
  unfold parseDraftValue. cbv zeta.
  destruct (String.eqb (trim raw) "null"); [discriminate|].
  destruct (String.eqb (trim raw) "true"); [discriminate|].
  destruct (String.eqb (trim raw) "false"); [discriminate|].
  destruct (negb (String.eqb (trim raw) "")).
  - destruct (StringToNumber (trim raw)); [discriminate | now intros [= <-]].
  - now intros [= <-].
Qed.

(** X17: A value that a save wrote comes through a later save unchanged, when
    its field is left as shown: the text shown for it is read back as the
    same value, but for [null] (shown as the empty text) and negative zero
    (shown as [0]); and but for [null] the document text is the same. *)
Theorem committed_value_survives (raw : string) :
  (parseDraftValue raw <> PNull ->
   parseDraftValue raw <> PNum negative_zero ->
   survives_edit (parseDraftValue raw)) /\
  (parseDraftValue raw <> PNull ->
   serialize_prim (parseDraftValue (field_text (Some (parseDraftValue raw))))
   = serialize_prim (parseDraftValue raw)).
Proof.
  assert (H : parseDraftValue raw <> PNull ->
              survives_edit (parseDraftValue raw) \/
              parseDraftValue raw = PNum negative_zero).
  { intros Hnull. destruct (parseDraftValue raw) as [|b|x|s] eqn:E.
    - congruence.
    - left. apply boolean_survives_edit.
    - destruct (@parseDraftValue_number raw x E) as [Hwf|Hz].
      + left. now apply number_survives_edit.
      + right. now rewrite Hz.
    - left. pose proof (@parseDraftValue_string raw s E) as Es. subst s. exact E. }
  split.
  - intros Hnull Hzero. destruct (H Hnull); [assumption | contradiction].
  - intros Hnull. destruct (H Hnull) as [Hs|Hz].
    + unfold survives_edit in Hs. now rewrite Hs.
    + rewrite Hz. reflexivity.
Qed.

Lemma committed_value_survives_witness :
  parseDraftValue " 3.14e2 " <> PNull /\
  parseDraftValue " 3.14e2 " <> PNum negative_zero /\
  field_text (Some (parseDraftValue " 3.14e2 ")) = "314" /\
  parseDraftValue "314" = parseDraftValue " 3.14e2 ".
Proof.
  assert (H1 : parseDraftValue " 3.14e2 " <> PNull) by discriminate.
  assert (H2 : parseDraftValue " 3.14e2 " <> PNum negative_zero) by discriminate.
  refine (conj H1 (conj H2 (conj eq_refl _))).
  exact (proj1 (committed_value_survives " 3.14e2 ") H1 H2).
Defined.

(** X18: White space around the text never changes a typed result, and is kept
    in a string result: the result is [null], a boolean or a number exactly
    when it is so for the trimmed text, and is then the same; otherwise it
    is the raw text itself. *)
Theorem parseDraftValue_padding (raw : string) :
  match parseDraftValue raw with
  | PStr s => s = raw /\ parseDraftValue (trim raw) = PStr (trim raw)
  | v => parseDraftValue (trim raw) = v
  end.
Proof.
  unfold parseDraftValue. cbv zeta. rewrite trim_idempotent.
  destruct (String.eqb (trim raw) "null"); [reflexivity|].
  destruct (String.eqb (trim raw) "true"); [reflexivity|].
  destruct (String.eqb (trim raw) "false"); [reflexivity|].
  destruct (negb (String.eqb (trim raw) "")).
  - destruct (StringToNumber (trim raw)); [reflexivity | split; reflexivity].
  - split; reflexivity.
Qed.

(* ================================================================== *)
(** * Saving the fields as they were projected *)

(** The modal's commit by fields, on the document alone. *)
Lemma field_map_update (root : Json) (path : list Seg) (m : props Json)
      (fields : props string) :
  get_path root path = Found (JObj m) ->
  NoDup (map fst fields) ->
  exists root' m',
    NodeModal.update root path fields = Ok root' /\
    get_path root' path = Found (JObj m') /\
    (forall k raw, In (k, raw) fields -> k <> proto ->
                   own_get m' k = Some (JPrim (parseDraftValue raw))) /\
    (forall k, ~ In k (map fst fields) -> own_get m' k = own_get m k).
Proof.
  intros Hget Hnd.
  destruct (assign_fields_object fields m) as (m' & Ha & Hother & Hin & _).
  assert (Hin' : forall k raw, In (k, raw) fields -> k <> proto ->
                               own_get m' k = Some (JPrim (parseDraftValue raw))).
  { intros k raw Hk Hp. apply (Hin Hnd k raw Hk). now left. }
  destruct path as [|s0 p0] eqn:Epath.
  - simpl in Hget. injection Hget as ->. exists (JObj m'), m'. auto.
  - assert (Hne : path <> []) by (rewrite Epath; discriminate).
    rewrite <- Epath in *. clear Epath.
    destruct (path_snoc Hne) as (inter & l & ->).
    rewrite get_path_last in Hget.
    destruct (get_path root inter) as [parent| | |] eqn:Hp; try discriminate.
    assert (Hc : is_container parent = true).
    { eapply js_get_found_container; eauto. discriminate. }
    assert (Hf : NodeModal.final_step l fields parent
                 = Ok (js_replace parent l (JObj m'))).
    { unfold NodeModal.final_step. rewrite Hget, Ha. reflexivity. }
    destruct (@descend_found inter _ root parent _ Hp Hc Hf) as (root' & Hd & Hg).
    exists root', m'. repeat split; auto.
    + now rewrite NodeModal_update_snoc.
    + rewrite get_path_last, Hg.
      apply js_replace_get. eapply js_get_found_holds; eauto.
Qed.

(** X19: Saving the fields of an object node as they were projected from
    its rows (the rows that give a field having distinct keys) writes,
    under the key of every row that is not a container and has a key,
    neither empty nor [__proto__], the coerced text of the row's value: so
    a member that was [null] becomes the empty string.  A row named
    [__proto__] gives no field, and the member of that name, if there is
    one, is left as it is. *)
Theorem save_of_projected_fields (root : Json) (path : list Seg) (m : props Json)
        (rows : list NodeRow) :
  get_path root path = Found (JObj m) ->
  NoDup (map fst (editable_entries rows)) ->
  exists root' m',
    NodeModal.update root path (NodeModal.extractEditableFields rows) = Ok root' /\
    get_path root' path = Found (JObj m') /\
    (forall row k, In row rows -> is_container_row row = false ->
                   key row = Some k -> k <> "" -> k <> "__proto__" ->
                   own_get m' k
                   = Some (JPrim (parseDraftValue (field_text (value row))))) /\
    (forall row k, In row rows -> is_container_row row = false ->
                   key row = Some k -> k <> "" -> k <> "__proto__" ->
                   value row = Some PNull ->
                   own_get m' k = Some (JPrim (PStr ""))) /\
    own_get m' "__proto__" = own_get m "__proto__".
Proof.
  intros Hget Hnd.
  assert (Hfields : forall row k,
             In row rows -> editable_key row = Some k ->
             In (k, field_text (value row)) (NodeModal.extractEditableFields rows)).
  { intros row k Hrow Hk. apply own_get_In.
    rewrite extractEditableFields_lookup.
    assert (Hin : In (k, field_text (value row)) (rev (editable_entries rows))).
    { apply -> in_rev. unfold editable_entries. apply in_flat_map.
      exists row. split; [exact Hrow|]. rewrite Hk. now left. }
    rewrite (@In_own_get _ (rev (editable_entries rows)) k (field_text (value row)));
      [reflexivity| |exact Hin].
    rewrite map_rev. now apply NoDup_rev. }
  destruct (@field_map_update root path m (NodeModal.extractEditableFields rows) Hget)
    as (root' & m' & Hu & Hg & Hin & Hother).
  { rewrite extractEditableFields_fold.
    apply fold_add_field_invariant; [constructor | intros []]. }
  assert (Hrows : forall row k,
             In row rows -> is_container_row row = false ->
             key row = Some k -> k <> "" -> k <> "__proto__" ->
             own_get m' k = Some (JPrim (parseDraftValue (field_text (value row))))).
  { intros row k Hrow Hc Hk Hne Hp.
    apply Hin; [|exact Hp]. apply Hfields; [exact Hrow|].
    apply editable_key_spec. auto. }
  exists root', m'. repeat split; auto.
  - intros row k Hrow Hc Hk Hne Hp Hv.
    rewrite (Hrows row k Hrow Hc Hk Hne Hp). now rewrite Hv.
  - apply Hother. apply extractEditableFields_no_proto.
Qed.

Lemma save_of_projected_fields_witness :
  get_path doc_null [] = Found (JObj [("a", JPrim PNull)]) /\
  NoDup (map fst (editable_entries (rows_of_object [("a", JPrim PNull)]))) /\
  NodeModal.update doc_null [] (NodeModal.extractEditableFields
                                  (rows_of_object [("a", JPrim PNull)]))
  = Ok (JObj [("a", JPrim (PStr ""))]).
Proof.
  assert (Hnd : NoDup (map fst (editable_entries (rows_of_object [("a", JPrim PNull)])))).
  { repeat constructor. intros []. }
  destruct (@save_of_projected_fields doc_null [] [("a", JPrim PNull)]
              (rows_of_object [("a", JPrim PNull)]) eq_refl Hnd)
    as (root' & m' & Hu & Hg & _ & Hnull).
  refine (conj eq_refl (conj Hnd _)).
  rewrite Hu. f_equal.
  vm_compute in Hu. now injection Hu as <-.
Defined.

(* ================================================================== *)
(** * The display of a node *)

Lemma fold_left_ext (A B : Type) (f g : A -> B -> A) (l : list B) :
  (forall a b, f a b = g a b) -> forall a, fold_left f l a = fold_left g l a.
Proof.
  intros H. induction l as [|b l IH]; intros a; simpl; [reflexivity|].
  now rewrite H, IH.
Qed.

Lemma fold_own_set_fresh (A : Type) (g : NodeRow -> A) (rows : list NodeRow) :
  forall acc : props A,
    NoDup (map fst acc ++ map fst (editable_entries rows)) ->
    (forall k, In k (map fst (editable_entries rows)) -> array_index k = None) ->
    fold_left (fun obj row => match editable_key row with
                              | Some k => own_set obj k (g row)
                              | None => obj
                              end) rows acc
    = (acc ++ flat_map (fun row => match editable_key row with
                                   | Some k => [(k, g row)]
                                   | None => []
                                   end) rows)%list.
Proof.
  induction rows as [|row rows IH]; intros acc Hnd Hidx.
  - simpl. now rewrite app_nil_r.
  - cbn [fold_left flat_map]. unfold editable_entries in *. cbn [flat_map] in *.
    fold (editable_entries rows) in *.
    destruct (editable_key row) as [k|].
    + cbn [app map fst] in Hnd, Hidx.
      assert (Hk : own_get acc k = None).
      { apply own_get_none_keys. intros Hin.
        apply NoDup_remove_2 in Hnd. apply Hnd. apply in_or_app. now left. }
      rewrite own_set_fresh; [|exact Hk | apply Hidx; now left].
      rewrite IH.
      * now rewrite <- app_assoc.
      * rewrite map_app, <- app_assoc. exact Hnd.
      * intros k0 H0. apply Hidx. now right.
    + apply IH; assumption.
Qed.

Lemma flat_map_flat_map (A B C : Type) (f : A -> list B) (g : B -> list C) (l : list A) :
  flat_map g (flat_map f l) = flat_map (fun a => flat_map g (f a)) l.
Proof.
  induction l as [|a l IH]; simpl; [reflexivity|].
  now rewrite flat_map_app, IH.
Qed.

(** While no row named [__proto__] holds [null], the object literal of
    [normalizeNodeData] keeps its prototype, and it gets the members of the
    rows that give one. *)
Lemma fold_literal_set (rows : list NodeRow) :
  (forall row, In row rows -> is_container_row row = false ->
               key row = Some "__proto__" -> value row <> Some PNull) ->
  forall acc : list (string * option Prim),
    fold_left
      (fun obj row =>
         if is_container_row row then obj
         else match truthy_key (key row) with
              | Some k => NodeModal.literal_set obj k (value row)
              | None => obj
              end) rows (acc, false)
    = (fold_left (fun obj row => match editable_key row with
                                 | Some k => own_set obj k (value row)
                                 | None => obj
                                 end) rows acc, false).
Proof.
  induction rows as [|row rows IH]; intros Hproto acc; [reflexivity|].
  cbn [fold_left]. unfold editable_key at 2.
  assert (Hrest : forall r, In r rows -> is_container_row r = false ->
                            key r = Some "__proto__" -> value r <> Some PNull).
  { intros r Hr. apply Hproto. now right. }
  destruct (is_container_row row) eqn:Ec; [now apply IH|].
  destruct (truthy_key (key row)) as [k|] eqn:Ek; [|now apply IH].
  unfold NodeModal.literal_set.
  destruct (String.eqb_spec k proto) as [->|Hk]; cbn [andb negb].
  - apply truthy_key_some in Ek. destruct Ek as [Ek _].
    pose proof (Hproto row (or_introl eq_refl) Ec Ek) as Hv.
    destruct (value row) as [[| | |]|]; try (now apply IH). congruence.
  - now apply IH.
Qed.

(** X20: The display of a node, but for a lone row without a key: the JSON text
    of an object that holds, in the order of the rows, the members of the
    rows that are not nested containers, have a key, neither empty nor
    [__proto__], and have a value (rows with distinct keys, none of them
    an array index).  Nested arrays and objects are left out, and no row
    gives the empty object.  A row named [__proto__] shows nothing, as
    long as none holds [null]: that one takes the prototype of the object
    away, after which the name is a member like any other. *)
Theorem normalizeNodeData_members (rows : list NodeRow) :
  match rows with
  | [row] => truthy_key (key row) <> None
  | _ => True
  end ->
  NoDup (map fst (editable_entries rows)) ->
  (forall k, In k (map fst (editable_entries rows)) -> array_index k = None) ->
  (forall row, In row rows -> is_container_row row = false ->
               key row = Some "__proto__" -> value row <> Some PNull) ->
  NodeModal.normalizeNodeData rows
  = stringify (JObj (flat_map displayed_member rows)).
Proof.
  intros Hshape Hnd Hidx Hproto.
  assert (Hgen : stringify
                   (JObj (flat_map (fun '(k, v) => match v with
                                                   | Some p => [(k, JPrim p)]
                                                   | None => []
                                                   end)
                            (fst (fold_left
                               (fun obj row =>
                                  if is_container_row row then obj
                                  else match truthy_key (key row) with
                                       | Some k => NodeModal.literal_set obj k (value row)
                                       | None => obj
                                       end) rows ([], false)))))
                 = stringify (JObj (flat_map displayed_member rows))).
  { rewrite (fold_literal_set rows Hproto []). cbn [fst].
    rewrite (fold_own_set_fresh value rows []) by assumption.
    cbn [app]. rewrite flat_map_flat_map. do 2 f_equal.
    apply flat_map_ext. intros row. unfold displayed_member.
    destruct (editable_key row); [|reflexivity].
    simpl. destruct (value row); reflexivity. }
  unfold NodeModal.normalizeNodeData.
  destruct rows as [|row [|row' rows]].
  - reflexivity.
  - destruct (truthy_key (key row)) eqn:E; [exact Hgen | congruence].
  - exact Hgen.
Qed.

Lemma normalizeNodeData_members_witness :
  NoDup (map fst (editable_entries
                    (rows_of_object [("name", JPrim (PStr "Ann")); ("tags", JArr [num 1]);
                                     ("age", num 30)]))) /\
  NodeModal.normalizeNodeData
    (rows_of_object [("name", JPrim (PStr "Ann")); ("tags", JArr [num 1]); ("age", num 30)])
  = stringify (JObj [("name", JPrim (PStr "Ann")); ("age", num 30)]).
Proof.
  assert (Hnd : NoDup (map fst (editable_entries
                    (rows_of_object [("name", JPrim (PStr "Ann")); ("tags", JArr [num 1]);
                                     ("age", num 30)])))).
  { repeat constructor; simpl; intuition discriminate. }
  split; [exact Hnd|].
  rewrite normalizeNodeData_members; [reflexivity | exact I | exact Hnd | |].
  - intros k Hk. simpl in Hk. destruct Hk as [<-|[<-|[]]]; reflexivity.
  - intros row Hrow _ Hk. simpl in Hrow.
    destruct Hrow as [<-|[<-|[<-|[]]]]; discriminate.
Defined.
